(** * The account examples of GnawTreeWriter: the C and C++ ledger model

    A shallow embedding of [examples/example.c] (the [Account] struct,
    [create_account] and the global [account_counter]) and of
    [examples/example.cpp] (namespace [banking]: [Account],
    [SavingsAccount], [CheckingAccount]), followed by the properties of the
    ledger model that hold of them and the ones that do not.

    Conventions of the embedding.
    - A C++ [double] is an IEEE 754 binary64 number: Rocq's primitive
      [float], whose operations round to nearest, ties to even.  Every
      operation of the source is one operation here, evaluated in binary64
      as written (no extended precision, no fused multiply-add).
      [x > y] is [y <? x] and [x >= y] is [y <=? x]; both are false as soon
      as an operand is a NaN, as in C++.
    - A C [int] is a 32-bit two's complement integer held in [Z].  ISO C
      leaves the overflow of [account_counter++] undefined; the embedding
      takes the wrap-around of the usual targets and writes it out.
    - [malloc] is an input of [create_account]: either [NULL] or a fresh
      block whose contents are indeterminate.
    - A [const char *] is the list of the bytes found at the pointer; the
      string it denotes stops before the first NUL byte (or at the end of
      the list, which is then followed by the terminator).

    Contents: the embedding ([CInt], [CString], [ExampleC], [banking]); the
    rationals that doubles stand for ([Binary64]) with the facts about
    comparison and rounding to nearest that the overdraft limit needs;
    then deposits and withdrawals, the overdraft limit, interest,
    [create_account] with its counter, identifiers and names, and the
    scenarios of the ledger as computations.

    The rest of the examples follows: [add], [print_account] and [main]
    of [examples/example.c] ([ExampleCProgram]), [add] and
    [Math::multiply] of [examples/hello.cpp] ([HelloCpp]), the templates
    [Container] and [max] of [examples/example.cpp] ([ExampleCpp]), and
    runs of a savings account ([SavingsRuns]); with rounding to nearest
    bounded from both sides, the order between the balance before and
    after an operation, the sign of a savings balance, and what the
    programs write. *)

From Stdlib Require Import ZArith List Sorted Bool Lia.
From Stdlib.Strings Require Import Byte Ascii String.
From Stdlib Require Import QArith Qpower Lqa.
From Stdlib Require Import Floats.
From Stdlib Require Import DecimalString.
Import ListNotations.

Set Warnings "-inexact-float".

(* ================================================================= *)
(** ** C integers *)

Module CInt.
Local Open Scope Z_scope.

Definition INT_MAX : Z := 2147483647.
Definition INT_MIN : Z := -2147483648.

(** The value an [int] object holds after a result [z] is stored in it. *)
Definition wrap (z : Z) : Z := (z + 2147483648) mod 4294967296 - 2147483648.

Definition in_range (z : Z) : Prop := INT_MIN <= z <= INT_MAX.

(** [x++] on an [int] lvalue. *)
Definition incr (x : Z) : Z := wrap (x + 1).
End CInt.

(* ================================================================= *)
(** ** C strings *)

Module CString.

Definition NUL : byte := x00.

(** The string denoted by the bytes at a [char *]. *)
Fixpoint c_str (mem : list byte) : list byte :=
  match mem with
  | [] => []
  | c :: rest => if Byte.eqb c NUL then [] else c :: c_str rest
  end.

Definition strlen (mem : list byte) : nat := List.length (c_str mem).

(** The [n] bytes [strncpy (dest, src, n)] writes: the characters of
    [src] up to its terminator, at most [n] of them, and NUL bytes for
    whatever remains of the [n]. *)
Fixpoint strncpy_written (src : list byte) (n : nat) {struct n}
    : list byte :=
  match n with
  | O => []
  | S n' =>
      match src with
      | [] => repeat NUL n
      | c :: rest =>
          if Byte.eqb c NUL then repeat NUL n
          else c :: strncpy_written rest n'
      end
  end.

(** [strncpy (dest, src, n)]: the first [n] bytes of [dest] are
    overwritten, the others are kept. *)
Definition strncpy (dest src : list byte) (n : nat) : list byte :=
  strncpy_written src n ++ skipn n dest.

(** [buf[i] = c] for [i] inside the array. *)
Definition store (buf : list byte) (i : nat) (c : byte) : list byte :=
  firstn i buf ++ c :: skipn (S i) buf.

End CString.

(* ================================================================= *)
(** ** example.c *)

Module ExampleC.
Import CString.

(** [typedef struct { int id; char name[50]; float balance; } Account;]
    The [float] field is a binary32 number, kept as a [spec_float]. *)
Record Account : Type := mkAccount
  { id : Z;
    name : list byte;
    balance : spec_float }.

(** [sizeof(acc->name)] *)
Definition sizeof_name : nat := 50.

(** The literal [0.0]. *)
Definition zero : spec_float := S754_zero false.

(** What [malloc(sizeof(Account))] returned: [None] is [NULL], [Some raw]
    a fresh block holding the indeterminate [raw]. *)
Definition malloc_result : Type := option Account.

(** [Account* create_account(int id, const char *name)], as a function of
    the answer of [malloc] and of the global [account_counter]; it
    returns the pointer ([None] for [NULL]) and the new value of the
    counter. *)
Definition create_account (id0 : Z) (name0 : list byte)
    (m : malloc_result) (account_counter : Z) : option Account * Z :=
  match m with
  | None => (None, account_counter)
  | Some acc =>
      let acc := mkAccount id0 (name acc) (balance acc) in
      let acc :=
        mkAccount (id acc)
          (strncpy (name acc) name0 (sizeof_name - 1)) (balance acc) in
      let acc :=
        mkAccount (id acc)
          (store (name acc) (sizeof_name - 1) NUL) (balance acc) in
      let acc := mkAccount (id acc) (name acc) zero in
      (Some acc, CInt.incr account_counter)
  end.

(** [static int account_counter = 0;] *)
Definition account_counter_init : Z := 0%Z.

(** One call of [create_account]: its two arguments and what [malloc]
    answers during the call. *)
Record call : Type := mkCall
  { call_id : Z;
    call_name : list byte;
    call_malloc : malloc_result }.

Definition succeeds (c : call) : bool :=
  match call_malloc c with Some _ => true | None => false end.

(** A sequence of calls, in program order: the pointers returned, in
    order, and the final value of [account_counter]. *)
Fixpoint run (calls : list call) (account_counter : Z)
    : list (option Account) * Z :=
  match calls with
  | [] => ([], account_counter)
  | c :: rest =>
      let '(r, k) :=
        create_account (call_id c) (call_name c) (call_malloc c)
          account_counter in
      let '(rs, k') := run rest k in
      (r :: rs, k')
  end.

(** The accounts that were created, in creation order. *)
Fixpoint created (rs : list (option Account)) : list Account :=
  match rs with
  | [] => []
  | Some a :: rest => a :: created rest
  | None :: rest => created rest
  end.

End ExampleC.

(* ================================================================= *)
(** ** The numbers a double stands for *)

Module Binary64.

Definition pow2 (e : Z) : Q := (2 ^ e)%Q.

(** The rational [m * 2^e]. *)
Definition magnitude (m : positive) (e : Z) : Q :=
  (inject_Z (Zpos m) * pow2 e)%Q.

(** The rational a finite binary floating-point number stands for;
    infinities and NaN stand for none. *)
Definition SF2Q (x : spec_float) : option Q :=
  match x with
  | S754_zero _ => Some 0%Q
  | S754_finite s m e =>
      Some (if s then - magnitude m e else magnitude m e)%Q
  | S754_infinity _ | S754_nan => None
  end.

Definition value (x : float) : option Q := SF2Q (Prim2SF x).

(** [r] is finite and stands for exactly [f p q], where [p] and [q] are
    what the finite [x] and [y] stand for: computing [r] from [x] and [y]
    lost nothing to rounding. *)
Definition exactly (f : Q -> Q -> Q) (x y r : float) : bool :=
  match value x, value y, value r with
  | Some p, Some q, Some s => Qeq_bool s (f p q)
  | _, _, _ => false
  end.

Definition exact_add (x y : float) : bool := exactly Qplus x y (x + y)%float.
Definition exact_sub (x y : float) : bool := exactly Qminus x y (x - y)%float.
Definition exact_mul (x y : float) : bool := exactly Qmult x y (x * y)%float.

(** The rational [m * 2^e], for an integer [m]. *)
Definition scaled (m e : Z) : Q := (inject_Z m * pow2 e)%Q.

(** After [k] steps of [shr_1] from the mantissa [M], with no lost bit on
    record at the start: the mantissa is [M / 2^k], and no lost bit is on
    record when [2^k] divides [M]. *)
Definition shifted (M : Z) (k : Z) (mrs : shr_record) : Prop :=
  shr_m mrs = (M / 2 ^ k)%Z /\
  ((M mod 2 ^ k = 0)%Z -> shr_r mrs = false /\ shr_s mrs = false).

(** [r] is not below [-l]: a finite number that stands for at least [-l],
    or [+infinity], or a NaN (which compares below nothing). *)
Definition SF_not_below (l : Q) (r : spec_float) : Prop :=
  match SF2Q r with
  | Some q => (- l <= q)%Q
  | None => r <> S754_infinity true
  end.

Definition not_below (l : Q) (x : float) : Prop :=
  SF_not_below l (Prim2SF x).

(** The double sum [b + L], for a finite [b], is finite and stands for at
    most the sum of what [b] and [L] stand for: it was not rounded
    upwards.  Nothing is asked when [b] is not finite. *)
Definition sum_not_rounded_up (b L : float) : bool :=
  match value b with
  | None => true
  | Some p =>
      match value L, value (b + L)%float with
      | Some l, Some s => Qle_bool s (p + l)
      | _, _ => false
      end
  end.

(** For a finite [b]: [L] and [a] are finite and, as numbers, [a] is at
    most [b + L].  Nothing is asked when [b] is not finite. *)
Definition within_limit (b L a : float) : bool :=
  match value b with
  | None => true
  | Some p =>
      match value L, value a with
      | Some l, Some q => Qle_bool q (p + l)
      | _, _ => false
      end
  end.

End Binary64.

(* ================================================================= *)
(** ** example.cpp, namespace banking *)

Module banking.
Local Open Scope float_scope.

(** [class Account]: the data members and the member functions that are
    not overridden. *)
Module Account.
Record t : Type := mk
  { id_ : Z;
    name_ : string;
    balance_ : float }.

(** [Account(int id, const std::string& name)] *)
Definition ctor (id : Z) (name : string) : t :=
  {| id_ := id; name_ := name; balance_ := 0 |}.

Definition getId (this : t) : Z := id_ this.
Definition getName (this : t) : string := name_ this.
Definition getBalance (this : t) : float := balance_ this.

Definition set_balance (this : t) (b : float) : t :=
  {| id_ := id_ this; name_ := name_ this; balance_ := b |}.

(** [virtual void deposit(double amount)] *)
Definition deposit (amount : float) (this : t) : t :=
  if 0 <? amount then set_balance this (balance_ this + amount)
  else this.

(** [virtual void withdraw(double amount)] *)
Definition withdraw (amount : float) (this : t) : t :=
  if (0 <? amount) && (amount <=? balance_ this) then
    set_balance this (balance_ this - amount)
  else this.
End Account.

(** [class SavingsAccount : public Account] *)
Module SavingsAccount.
Record t : Type := mk
  { base : Account.t;
    interestRate_ : float }.

(** [SavingsAccount(int id, const std::string& name, double rate)] *)
Definition ctor (id : Z) (name : string) (rate : float) : t :=
  {| base := Account.ctor id name; interestRate_ := rate |}.

Definition with_base (this : t) (b : Account.t) : t :=
  {| base := b; interestRate_ := interestRate_ this |}.

(** Inherited from [Account]. *)
Definition getBalance (this : t) : float := Account.getBalance (base this).

(** Inherited from [Account]. *)
Definition deposit (amount : float) (this : t) : t :=
  with_base this (Account.deposit amount (base this)).

(** Inherited from [Account]. *)
Definition withdraw (amount : float) (this : t) : t :=
  with_base this (Account.withdraw amount (base this)).

(** [void applyInterest()] *)
Definition applyInterest (this : t) : t :=
  let b := Account.balance_ (base this) in
  with_base this
    (Account.set_balance (base this) (b + b * interestRate_ this)).

Definition getAccountType (this : t) : string := "Savings"%string.
End SavingsAccount.

(** [class CheckingAccount : public Account] *)
Module CheckingAccount.
Record t : Type := mk
  { base : Account.t;
    overdraftLimit_ : float }.

(** [CheckingAccount(int id, const std::string& name, double limit)] *)
Definition ctor (id : Z) (name : string) (limit : float) : t :=
  {| base := Account.ctor id name; overdraftLimit_ := limit |}.

Definition with_base (this : t) (b : Account.t) : t :=
  {| base := b; overdraftLimit_ := overdraftLimit_ this |}.

(** Inherited from [Account]. *)
Definition getBalance (this : t) : float := Account.getBalance (base this).

(** Inherited from [Account]. *)
Definition deposit (amount : float) (this : t) : t :=
  with_base this (Account.deposit amount (base this)).

(** [void withdraw(double amount) override] *)
Definition withdraw (amount : float) (this : t) : t :=
  let b := Account.balance_ (base this) in
  if (0 <? amount) && (amount <=? b + overdraftLimit_ this) then
    with_base this (Account.set_balance (base this) (b - amount))
  else this.

Definition getAccountType (this : t) : string := "Checking"%string.
End CheckingAccount.

(** An object of dynamic type [SavingsAccount] or [CheckingAccount] seen
    through an [Account*]: calls of the virtual member functions go to
    the final overrider. *)
Inductive account : Type :=
| Savings (s : SavingsAccount.t)
| Checking (c : CheckingAccount.t).

Definition base (a : account) : Account.t :=
  match a with
  | Savings s => SavingsAccount.base s
  | Checking c => CheckingAccount.base c
  end.

Definition getId (a : account) : Z := Account.getId (base a).
Definition getName (a : account) : string := Account.getName (base a).
Definition getBalance (a : account) : float := Account.getBalance (base a).

Definition deposit (amount : float) (a : account) : account :=
  match a with
  | Savings s => Savings (SavingsAccount.deposit amount s)
  | Checking c => Checking (CheckingAccount.deposit amount c)
  end.

Definition withdraw (amount : float) (a : account) : account :=
  match a with
  | Savings s => Savings (SavingsAccount.withdraw amount s)
  | Checking c => Checking (CheckingAccount.withdraw amount c)
  end.

Definition getAccountType (a : account) : string :=
  match a with
  | Savings s => SavingsAccount.getAccountType s
  | Checking c => CheckingAccount.getAccountType c
  end.

(** The rate of a savings account, the limit of a checking account. *)
Definition interestRate (a : account) : option float :=
  match a with
  | Savings s => Some (SavingsAccount.interestRate_ s)
  | Checking _ => None
  end.

Definition overdraftLimit (a : account) : option float :=
  match a with
  | Savings _ => None
  | Checking c => Some (CheckingAccount.overdraftLimit_ c)
  end.

(** The calls a client can make on a checking account that change it. *)
Inductive op : Type :=
| Deposit (amount : float)
| Withdraw (amount : float).

Definition apply_op (o : op) (c : CheckingAccount.t) : CheckingAccount.t :=
  match o with
  | Deposit a => CheckingAccount.deposit a c
  | Withdraw a => CheckingAccount.withdraw a c
  end.

(** A sequence of calls, first call first. *)
Fixpoint run (ops : list op) (c : CheckingAccount.t) : CheckingAccount.t :=
  match ops with
  | [] => c
  | o :: rest => run rest (apply_op o c)
  end.

End banking.

(* ================================================================= *)
(** ** Withdrawals within the limit *)

Module Guard.
Import banking.
Local Open Scope float_scope.

(** The call [o] on [c], when it is a withdrawal that passes the test of
    [CheckingAccount::withdraw], withdraws an amount that is within the
    limit as a number: at most the exact sum of the balance and of the
    overdraft limit.  (The test compares the amount with the double sum,
    which rounding can place above the exact one.) *)
Definition accepted_within_limit (o : op) (c : CheckingAccount.t) : bool :=
  let b := CheckingAccount.getBalance c in
  let l := CheckingAccount.overdraftLimit_ c in
  match o with
  | Deposit _ => true
  | Withdraw a =>
      if (0 <? a) && (a <=? b + l) then Binary64.within_limit b l a
      else true
  end.

(** The same for every call of a sequence, each on the account as the
    calls before it left it. *)
Fixpoint all_within_limit (ops : list op) (c : CheckingAccount.t) : bool :=
  match ops with
  | [] => true
  | o :: rest =>
      accepted_within_limit o c && all_within_limit rest (apply_op o c)
  end.

End Guard.

(* ================================================================= *)
(** ** Values used in the examples *)

Module Fixtures.

(** A block as [malloc] may return it: 50 bytes of 0xAA in [name], a
    meaningless [id], a [balance] that is no number. *)
Definition fresh_block : ExampleC.Account :=
  ExampleC.mkAccount (-1431655766) (repeat xaa 50) S754_nan.

(** A name of 52 characters; its first 49 stop before [" Sr"]. *)
Definition long_name : string :=
  "Hubert Blaine Wolfeschlegelsteinhausenbergerdorff Sr"%string.

Definition long_name_49 : string :=
  "Hubert Blaine Wolfeschlegelsteinhausenbergerdorff"%string.

(** A successful call [create_account(i, s)]. *)
Definition successful_call (i : Z) (s : string) : ExampleC.call :=
  ExampleC.mkCall i (list_byte_of_string s) (Some fresh_block).

End Fixtures.

(* ================================================================= *)
(** ** Bounds on a rounded result *)

Module Binary64Bounds.
Import Binary64.

(** [r] is at least [qz]: a finite number that stands for at least [qz],
    or [+infinity]. *)
Definition SF_at_least (qz : Q) (r : spec_float) : Prop :=
  match SF2Q r with
  | Some q => (qz <= q)%Q
  | None => r = S754_infinity false
  end.

(** [r] is at most [qz]: a finite number that stands for at most [qz],
    or [-infinity]. *)
Definition SF_at_most (qz : Q) (r : spec_float) : Prop :=
  match SF2Q r with
  | Some q => (q <= qz)%Q
  | None => r = S754_infinity true
  end.

End Binary64Bounds.

(* ================================================================= *)
(** ** Runs of a savings account *)

Module SavingsRuns.
Import banking.
Local Open Scope float_scope.

(** The calls a client can make on a savings account that change it. *)
Inductive sop : Type :=
| SDeposit (amount : float)
| SWithdraw (amount : float)
| SApplyInterest.

Definition apply_sop (o : sop) (s : SavingsAccount.t) : SavingsAccount.t :=
  match o with
  | SDeposit a => SavingsAccount.deposit a s
  | SWithdraw a => SavingsAccount.withdraw a s
  | SApplyInterest => SavingsAccount.applyInterest s
  end.

Fixpoint run (ops : list sop) (s : SavingsAccount.t) : SavingsAccount.t :=
  match ops with
  | [] => s
  | o :: rest => run rest (apply_sop o s)
  end.

End SavingsRuns.

(* ================================================================= *)
(** ** example.c: [add], [print_account] and [main] *)

Module ExampleCProgram.
Import CString ExampleC.
Local Open Scope string_scope.

(** [int add(int a, int b)] *)
Definition add (a b : Z) : Z := CInt.wrap (a + b).

(** The newline character. *)
Definition nl : string := String (ascii_of_nat 10) EmptyString.

(** [printf]'s [%d]. *)
Definition fmt_d (z : Z) : string := NilZero.string_of_int (Z.to_int z).

(** [printf]'s [%s]: the characters at the pointer, up to the first NUL. *)
Definition fmt_s (mem : list byte) : string :=
  string_of_list_byte (c_str mem).

(** What a run has written to [stdout] and to [stderr]. *)
Record output : Type := mkOutput
  { stdout : string;
    stderr : string }.

Definition printf (text : string) (o : output) : output :=
  {| stdout := stdout o ++ text; stderr := stderr o |}.

Definition fprintf_stderr (text : string) (o : output) : output :=
  {| stdout := stdout o; stderr := stderr o ++ text |}.

Definition no_output : output := {| stdout := ""; stderr := "" |}.

(** The literal [1000.50] converted to [float]: [16392192 * 2^-14]. *)
Definition balance_1000_50 : spec_float := S754_finite false 16392192 (-14).

Section Formatting.

(** [printf]'s [%.2f], which the C library provides. *)
Variable fmt_2f : spec_float -> string.

(** [void print_account(Account *acc)] *)
Definition print_account (acc : option Account) (o : output) : output :=
  match acc with
  | None => printf ("Invalid account" ++ nl) o
  | Some a =>
      let o := printf ("Account ID: " ++ fmt_d (id a) ++ nl) o in
      let o := printf ("Name: " ++ fmt_s (name a) ++ nl) o in
      printf ("Balance: " ++ fmt_2f (balance a) ++ nl) o
  end.

(** [int main(int argc, char *argv[])], as a function of what [malloc]
    answers: the exit status and what was written. *)
Definition main (m : malloc_result) : Z * output :=
  let o := printf ("Welcome to Account Manager" ++ nl) no_output in
  let '(acc, account_counter) :=
    create_account 1 (list_byte_of_string "John Doe") m
      account_counter_init in
  match acc with
  | None => (1%Z, fprintf_stderr ("Failed to create account" ++ nl) o)
  | Some a =>
      let a := mkAccount (id a) (name a) balance_1000_50 in
      let o := print_account (Some a) o in
      let sum := add 10 20 in
      let o := printf ("Sum: " ++ fmt_d sum ++ nl) o in
      let o :=
        printf ("Total accounts created: " ++ fmt_d account_counter ++ nl)
          o in
      (0%Z, o)
  end.

End Formatting.
End ExampleCProgram.

(* ================================================================= *)
(** ** hello.cpp *)

Module HelloCpp.

(** [int add(int a, int b)] *)
Definition add (a b : Z) : Z := CInt.wrap (a + b).

Module Math.
(** [int multiply(int a, int b)] *)
Definition multiply (a b : Z) : Z := CInt.wrap (a * b).
End Math.

End HelloCpp.

(* ================================================================= *)
(** ** example.cpp: the templates *)

Module ExampleCpp.

(** [template<typename T> class Container], a wrapper of
    [std::vector<T> items_]. *)
Module Container.
Section WithT.
Variable T : Type.

Definition t : Type := list T.

(** A default-constructed container. *)
Definition empty : t := [].

(** [void add(const T& item)]: [items_.push_back(item)]. *)
Definition add (item : T) (this : t) : t := this ++ [item].

(** [size_t size() const] *)
Definition size (this : t) : nat := List.length this.

(** [T& operator[](size_t index)]: the element, or [None] when [index]
    is out of range, where [items_[index]] is undefined. *)
Definition index (this : t) (i : nat) : option T := nth_error this i.

(** The calls [add(x1); add(x2); ...] in order. *)
Definition add_all (items : list T) (this : t) : t :=
  fold_left (fun c x => add x c) items this.

End WithT.
Arguments empty {T}.
Arguments add {T}.
Arguments size {T}.
Arguments index {T}.
Arguments add_all {T}.
End Container.

Section Max.
Variable T : Type.
(** [a > b] at type [T]. *)
Variable gt : T -> T -> bool.

(** [template<typename T> T max(T a, T b)] *)
Definition max (a b : T) : T := if gt a b then a else b.
End Max.
Arguments max {T}.

(** [max<int>] and [max<double>]. *)
Definition max_int : Z -> Z -> Z := max Z.gtb.
Definition max_double : float -> float -> float :=
  max (fun a b => (b <? a)%float).

End ExampleCpp.

(* ================================================================= *)
(** ** Binary64 comparisons and the rationals *)

Section Binary64Facts.
Import Binary64.
Local Open Scope Q_scope.

Lemma pow2_pos (e : Z) : 0 < pow2 e.
Proof. apply Qpower_0_lt. reflexivity. Qed.

Lemma pow2_add (a b : Z) : pow2 (a + b) == pow2 a * pow2 b.
Proof. apply Qpower_plus. discriminate. Qed.

Lemma pow2_Z (k : Z) : (0 <= k)%Z -> pow2 k == inject_Z (2 ^ k).
Proof.
  intros H. unfold pow2. rewrite Zpower_Qpower by assumption. reflexivity.
Qed.

Lemma magnitude_pos (m : positive) (e : Z) : 0 < magnitude m e.
Proof.
  unfold magnitude.
  apply Qmult_lt_0_compat; [reflexivity | apply pow2_pos].
Qed.

(** A mantissa of [d] binary digits lies in [[2^(d-1), 2^d)]. *)
Lemma digits2_pos_bounds (m : positive) :
  (2 ^ (Zpos (digits2_pos m) - 1) <= Zpos m < 2 ^ Zpos (digits2_pos m))%Z.
Proof.
  induction m as [m IH | m IH | ]; cbn [digits2_pos];
    [ | | cbn; lia ];
    rewrite Pos2Z.inj_succ;
    replace (Z.succ (Zpos (digits2_pos m)) - 1)%Z
      with (Z.succ (Zpos (digits2_pos m) - 1)) by lia;
    rewrite !Z.pow_succ_r by lia; lia.
Qed.

(** What being a canonical binary64 mantissa and exponent gives: at most
    53 digits, an exponent of at least -1074, and a full 53 digits above
    the smallest exponent. *)
Lemma canonical_bounds (m : positive) (e : Z) :
  canonical_mantissa prec emax m e = true ->
  (Zpos m < 2 ^ 53)%Z /\ (-1074 <= e)%Z /\
  ((-1074 < e)%Z -> (2 ^ 52 <= Zpos m)%Z).
Proof.
  unfold canonical_mantissa, fexp, emin, emax, prec. intros H.
  apply Z.eqb_eq in H.
  pose proof (digits2_pos_bounds m) as [Hlo Hhi].
  set (d := Zpos (digits2_pos m)) in *.
  assert (Hd : (d <= 53)%Z) by lia.
  split; [| split].
  - apply Z.lt_le_trans with (1 := Hhi). apply Z.pow_le_mono_r; lia.
  - lia.
  - intros He. assert (d = 53)%Z by lia.
    replace 52%Z with (d - 1)%Z by lia. exact Hlo.
Qed.

Lemma magnitude_lt (m1 : positive) (e1 : Z) (m2 : positive) (e2 : Z) :
  canonical_mantissa prec emax m1 e1 = true ->
  canonical_mantissa prec emax m2 e2 = true ->
  (e1 < e2)%Z -> magnitude m1 e1 < magnitude m2 e2.
Proof.
  intros H1 H2 He.
  destruct (canonical_bounds _ _ H1) as (Hm1 & He1 & _).
  destruct (canonical_bounds _ _ H2) as (_ & _ & Hm2).
  specialize (Hm2 ltac:(lia)).
  unfold magnitude.
  replace e2 with ((e2 - e1) + e1)%Z by lia.
  rewrite pow2_add, (pow2_Z (e2 - e1)) by lia.
  rewrite Qmult_assoc, <- inject_Z_mult.
  apply Qmult_lt_compat_r; [apply pow2_pos |].
  rewrite <- Zlt_Qlt.
  assert (2 ^ 1 <= 2 ^ (e2 - e1))%Z by (apply Z.pow_le_mono_r; lia).
  change (2 ^ 1)%Z with 2%Z in *.
  change (2 ^ 53)%Z with (2 ^ 52 * 2)%Z in Hm1.
  nia.
Qed.

Lemma magnitude_compare_same_exp (m1 m2 : positive) (e : Z) :
  (magnitude m1 e ?= magnitude m2 e) = Pos.compare m1 m2.
Proof.
  change (Pos.compare m1 m2) with (Zpos m1 ?= Zpos m2)%Z.
  unfold magnitude.
  pose proof (pow2_pos e) as Hp.
  destruct (Z.compare_spec (Zpos m1) (Zpos m2)) as [E | L | G].
  - apply -> Qeq_alt. rewrite E. reflexivity.
  - apply -> Qlt_alt.
    apply Qmult_lt_compat_r; [exact Hp | now rewrite <- Zlt_Qlt].
  - apply -> Qgt_alt.
    apply Qmult_lt_compat_r; [exact Hp | now rewrite <- Zlt_Qlt].
Qed.

Lemma magnitude_compare (m1 : positive) (e1 : Z) (m2 : positive) (e2 : Z) :
  canonical_mantissa prec emax m1 e1 = true ->
  canonical_mantissa prec emax m2 e2 = true ->
  (magnitude m1 e1 ?= magnitude m2 e2) =
  match (e1 ?= e2)%Z with
  | Lt => Lt
  | Gt => Gt
  | Eq => Pos.compare_cont Eq m1 m2
  end.
Proof.
  intros H1 H2.
  destruct (Z.compare_spec e1 e2) as [E | L | G].
  - subst e2. apply magnitude_compare_same_exp.
  - apply -> Qlt_alt. now apply magnitude_lt.
  - apply -> Qgt_alt. now apply magnitude_lt.
Qed.

Lemma Qcompare_opp (x y : Q) : (- x ?= - y) = CompOpp (x ?= y).
Proof.
  rewrite Qcompare_antisym.
  destruct (Qcompare_spec y x) as [E | L | G].
  - apply -> Qeq_alt. rewrite E. reflexivity.
  - apply -> Qlt_alt. lra.
  - apply -> Qgt_alt. lra.
Qed.

(** On valid finite numbers the comparison of the IEEE specification is
    the comparison of the rationals they stand for. *)
Lemma SFcompare_value (x y : spec_float) (qx qy : Q) :
  valid_binary x = true -> valid_binary y = true ->
  SF2Q x = Some qx -> SF2Q y = Some qy ->
  SFcompare x y = Some (qx ?= qy).
Proof.
  intros Vx Vy Hx Hy.
  destruct x as [sx | sx | | sx mx ex]; try discriminate;
    destruct y as [sy | sy | | sy my ey]; try discriminate;
    cbn in Hx, Hy; injection Hx as <-; injection Hy as <-;
    cbn [SFcompare].
  - reflexivity.
  - f_equal. pose proof (magnitude_pos my ey).
    destruct sy; symmetry; [apply -> Qgt_alt | apply -> Qlt_alt]; lra.
  - f_equal. pose proof (magnitude_pos mx ex).
    destruct sx; symmetry; [apply -> Qlt_alt | apply -> Qgt_alt]; lra.
  - cbn in Vx, Vy. apply andb_true_iff in Vx, Vy.
    destruct Vx as [Cx _], Vy as [Cy _].
    pose proof (magnitude_pos mx ex). pose proof (magnitude_pos my ey).
    f_equal. destruct sx, sy.
    + rewrite Qcompare_opp, (magnitude_compare _ _ _ _ Cx Cy).
      destruct (ex ?= ey)%Z; reflexivity.
    + symmetry. apply -> Qlt_alt. lra.
    + symmetry. apply -> Qgt_alt. lra.
    + rewrite (magnitude_compare _ _ _ _ Cx Cy). reflexivity.
Qed.

Lemma compare_value (x y : float) (qx qy : Q) :
  value x = Some qx -> value y = Some qy ->
  SFcompare (Prim2SF x) (Prim2SF y) = Some (qx ?= qy).
Proof.
  intros Hx Hy. apply SFcompare_value; auto using Prim2SF_valid.
Qed.

(** [x < y] on doubles is [<] on what they stand for. *)
Lemma ltb_value (x y : float) (qx qy : Q) :
  value x = Some qx -> value y = Some qy ->
  ((x <? y)%float = true <-> qx < qy).
Proof.
  intros Hx Hy. rewrite ltb_spec. unfold SFltb.
  rewrite (compare_value _ _ _ _ Hx Hy), Qlt_alt.
  destruct (qx ?= qy); split; congruence.
Qed.

(** [x <= y] on doubles is [<=] on what they stand for. *)
Lemma leb_value (x y : float) (qx qy : Q) :
  value x = Some qx -> value y = Some qy ->
  ((x <=? y)%float = true <-> qx <= qy).
Proof.
  intros Hx Hy. rewrite leb_spec. unfold SFleb.
  rewrite (compare_value _ _ _ _ Hx Hy), Qle_alt.
  destruct (qx ?= qy); split; congruence.
Qed.

Lemma value_zero : value 0%float = Some 0.
Proof. reflexivity. Qed.

Lemma value_opp (x : float) (q : Q) :
  value x = Some q -> exists q', value (- x)%float = Some q' /\ q' == - q.
Proof.
  unfold value. rewrite opp_spec.
  destruct (Prim2SF x) as [s | s | | s m e]; cbn; try discriminate;
    intros [= <-].
  - exists 0. split; [reflexivity | lra].
  - destruct s; cbn; eexists; (split; [reflexivity | lra]).
Qed.

(** A comparison with zero that succeeds excludes the opposite one, NaN
    included. *)
Lemma leb_zero_not_pos (a : float) :
  (a <=? 0)%float = true -> (0 <? a)%float = false.
Proof.
  rewrite leb_spec, ltb_spec.
  change (Prim2SF 0) with (S754_zero false).
  destruct (Prim2SF a) as [ [] | [] | | [] m e ]; cbn; congruence.
Qed.

Lemma exactly_spec (f : Q -> Q -> Q) (x y r : float) :
  exactly f x y r = true ->
  exists p q s,
    value x = Some p /\ value y = Some q /\ value r = Some s /\
    s == f p q.
Proof.
  unfold exactly.
  destruct (value x) as [p |]; [| discriminate].
  destruct (value y) as [q |]; [| discriminate].
  destruct (value r) as [s |]; [| discriminate].
  intros H. apply Qeq_bool_iff in H. exists p, q, s. auto.
Qed.

End Binary64Facts.

(* ================================================================= *)
(** ** Rounding to nearest in binary64 *)

Section Rounding.
Import Binary64.
Local Open Scope Q_scope.

Lemma scaled_le_iff (m1 m2 e : Z) : scaled m1 e <= scaled m2 e <-> (m1 <= m2)%Z.
Proof.
  unfold scaled. rewrite Qmult_le_r by apply pow2_pos.
  rewrite <- Zle_Qle. reflexivity.
Qed.

Lemma scaled_shift (m e k : Z) :
  (0 <= k)%Z -> scaled (m * 2 ^ k) e == scaled m (e + k).
Proof.
  intros Hk. unfold scaled.
  rewrite inject_Z_mult, Z.add_comm, pow2_add, (pow2_Z k Hk). ring.
Qed.

Lemma pow2_le (a b : Z) : (a <= b)%Z -> pow2 a <= pow2 b.
Proof. intros H. apply Qpower_le_compat_l; [exact H | discriminate]. Qed.

Lemma Zdigits2_bounds (m : Z) :
  (0 < m)%Z -> (2 ^ (Zdigits2 m - 1) <= m < 2 ^ Zdigits2 m)%Z.
Proof.
  destruct m as [| p | p]; try lia. intros _. apply digits2_pos_bounds.
Qed.

Lemma Zdigits2_pos (m : Z) : (0 < m)%Z -> (0 < Zdigits2 m)%Z.
Proof. destruct m; cbn; lia. Qed.

Lemma Zdigits2_unique (m d : Z) :
  (2 ^ (d - 1) <= m < 2 ^ d)%Z -> (0 < m)%Z -> Zdigits2 m = d.
Proof.
  intros [Hlo Hhi] Hm.
  destruct (Zdigits2_bounds m Hm) as [Hlo' Hhi'].
  pose proof (Zdigits2_pos m Hm) as Hd.
  assert (Hd' : (0 < d)%Z).
  { destruct (Z.lt_trichotomy 0 d) as [H | [H | H]]; [exact H | |].
    - subst d. cbn in Hhi. lia.
    - rewrite Z.pow_neg_r in Hhi by lia. lia. }
  destruct (Z.lt_trichotomy (Zdigits2 m) d) as [H | [H | H]]; [| exact H |].
  - assert (2 ^ Zdigits2 m <= 2 ^ (d - 1))%Z
      by (apply Z.pow_le_mono_r; lia).
    lia.
  - assert (2 ^ d <= 2 ^ (Zdigits2 m - 1))%Z
      by (apply Z.pow_le_mono_r; lia).
    lia.
Qed.

Lemma Zdigits2_le (a b : Z) :
  (0 < a <= b)%Z -> (Zdigits2 a <= Zdigits2 b)%Z.
Proof.
  intros [Ha Hab].
  destruct (Zdigits2_bounds a Ha) as [Hlo _].
  destruct (Zdigits2_bounds b ltac:(lia)) as [_ Hhi].
  destruct (Z_le_gt_dec (Zdigits2 a) (Zdigits2 b)) as [H | H]; [exact H |].
  assert (2 ^ Zdigits2 b <= 2 ^ (Zdigits2 a - 1))%Z
    by (apply Z.pow_le_mono_r; lia).
  lia.
Qed.

Lemma Zdigits2_shift (m k : Z) :
  (0 < m)%Z -> (0 <= k)%Z -> Zdigits2 (m * 2 ^ k) = (Zdigits2 m + k)%Z.
Proof.
  intros Hm Hk.
  destruct (Zdigits2_bounds m Hm) as [Hlo Hhi].
  pose proof (Zdigits2_pos m Hm) as Hd.
  assert (Hp : (0 < 2 ^ k)%Z) by (apply Z.pow_pos_nonneg; lia).
  apply Zdigits2_unique; [| nia].
  replace (Zdigits2 m + k - 1)%Z with ((Zdigits2 m - 1) + k)%Z by lia.
  rewrite !Z.pow_add_r by lia. nia.
Qed.

(** The magnitude of a positive number grows with it. *)
Lemma magnitude_le_digits (m1 e1 m2 e2 : Z) :
  (0 < m1)%Z -> (0 < m2)%Z ->
  scaled m1 e1 <= scaled m2 e2 ->
  (Zdigits2 m1 + e1 <= Zdigits2 m2 + e2)%Z.
Proof.
  intros H1 H2 Hle.
  destruct (Z_le_gt_dec (Zdigits2 m1 + e1) (Zdigits2 m2 + e2)) as [H | H];
    [exact H | exfalso].
  destruct (Zdigits2_bounds m1 H1) as [Hlo _].
  destruct (Zdigits2_bounds m2 H2) as [_ Hhi].
  pose proof (Zdigits2_pos m1 H1). pose proof (Zdigits2_pos m2 H2).
  assert (A : scaled m2 e2 < pow2 (Zdigits2 m2 + e2)).
  { rewrite Z.add_comm, pow2_add, (pow2_Z (Zdigits2 m2)) by lia.
    unfold scaled. rewrite (Qmult_comm (pow2 e2)).
    apply Qmult_lt_compat_r; [apply pow2_pos | now rewrite <- Zlt_Qlt]. }
  assert (B : pow2 (Zdigits2 m1 - 1 + e1) <= scaled m1 e1).
  { rewrite Z.add_comm, pow2_add, (pow2_Z (Zdigits2 m1 - 1)) by lia.
    unfold scaled. rewrite (Qmult_comm (pow2 e1)).
    apply Qmult_le_compat_r;
      [now rewrite <- Zle_Qle | apply Qlt_le_weak, pow2_pos]. }
  assert (C : pow2 (Zdigits2 m2 + e2) <= pow2 (Zdigits2 m1 - 1 + e1))
    by (apply pow2_le; lia).
  lra.
Qed.

(** [shl_align] keeps the number and lowers the exponent to the smaller of
    the two. *)
Lemma shl_align_spec (m : positive) (e e' : Z) :
  let '(m', e1) := shl_align m e e' in
  e1 = Z.min e e' /\ Zpos m' = (Zpos m * 2 ^ (e - e1))%Z.
Proof.
  unfold shl_align.
  destruct (e' - e)%Z as [| d | d] eqn:E.
  - split; [lia |]. replace (e - e)%Z with 0%Z by lia. cbn. lia.
  - split; [lia |]. replace (e - e)%Z with 0%Z by lia. cbn. lia.
  - split; [lia |].
    change (Pos.iter xO m d) with (shift_pos d m).
    rewrite shift_pos_correct, Z.pow_pos_fold.
    replace (e - e')%Z with (Zpos d) by lia. lia.
Qed.

(** Iterating [f] with [iter_pos] applies it [p] times. *)
Lemma iter_pos_invariant {A : Type} (f : A -> A) (P : Z -> A -> Prop) :
  (forall k x, (0 <= k)%Z -> P k x -> P (k + 1)%Z (f x)) ->
  forall p k x, (0 <= k)%Z -> P k x -> P (k + Zpos p)%Z (iter_pos f p x).
Proof.
  intros Hstep.
  induction p as [p IH | p IH |]; intros k x Hk Hx; cbn [iter_pos].
  - replace (k + Z.pos p~1)%Z with ((k + 1 + Zpos p) + Zpos p)%Z by lia.
    apply IH; [lia |]. apply IH; [lia |]. now apply Hstep.
  - replace (k + Z.pos p~0)%Z with ((k + Zpos p) + Zpos p)%Z by lia.
    apply IH; [lia |]. now apply IH.
  - now apply Hstep.
Qed.

Lemma shr_1_shifted (M k : Z) (mrs : shr_record) :
  (0 <= M)%Z -> (0 <= k)%Z -> shifted M k mrs -> shifted M (k + 1) (shr_1 mrs).
Proof.
  intros HM Hk [Hm Hex].
  assert (Hp : (0 < 2 ^ k)%Z) by (apply Z.pow_pos_nonneg; lia).
  assert (Hdiv : (M / 2 ^ (k + 1) = (M / 2 ^ k) / 2)%Z).
  { rewrite Z.pow_add_r, Z.pow_1_r by lia.
    rewrite Z.div_div by lia. reflexivity. }
  assert (Hmod : (M mod 2 ^ (k + 1) = 0 ->
                  M mod 2 ^ k = 0 /\ (M / 2 ^ k) mod 2 = 0)%Z).
  { rewrite Z.pow_add_r, Z.pow_1_r by lia. intros H.
    rewrite Z.rem_mul_r in H by lia.
    pose proof (Z.mod_pos_bound M (2 ^ k) Hp).
    pose proof (Z.mod_pos_bound (M / 2 ^ k) 2 ltac:(lia)). nia. }
  assert (Hnn : (0 <= M / 2 ^ k)%Z) by (apply Z.div_pos; lia).
  destruct mrs as [m r s]. cbn [shr_m shr_r shr_s] in *. subst m.
  unfold shifted. rewrite Hdiv.
  destruct (M / 2 ^ k)%Z as [| [p | p |] | p] eqn:E; try lia;
    cbn [shr_1 shr_m shr_r shr_s].
  - split; [reflexivity |]. intros H. destruct (Hmod H) as [H1 _].
    destruct (Hex H1) as [-> ->]. auto.
  - split; [rewrite Pos2Z.inj_xI; apply Z.div_unique with 1%Z; lia |].
    intros H. destruct (Hmod H) as [_ H2]. rewrite Pos2Z.inj_xI in H2.
    rewrite Z.add_comm, Z.mul_comm, Z.mod_add in H2 by lia. discriminate.
  - split; [rewrite Pos2Z.inj_xO; apply Z.div_unique with 0%Z; lia |].
    intros H. destruct (Hmod H) as [H1 _]. destruct (Hex H1) as [-> ->]. auto.
  - split; [reflexivity |]. intros H. destruct (Hmod H) as [_ H2]. discriminate.
Qed.

Lemma shr_spec (m e n : Z) :
  (0 <= m)%Z -> (0 <= n)%Z ->
  let '(mrs, e') := shr (shr_record_of_loc m loc_Exact) e n in
  e' = (e + n)%Z /\ shifted m n mrs.
Proof.
  intros Hm Hn. unfold shr.
  assert (H0 : shifted m 0 (shr_record_of_loc m loc_Exact)).
  { split; cbn; [now rewrite Z.div_1_r | auto]. }
  destruct n as [| p | p]; try lia.
  - split; [lia | exact H0].
  - split; [reflexivity |].
    apply (iter_pos_invariant shr_1 (shifted m)
             (fun k x Hk => shr_1_shifted m k x Hm Hk) p 0 _ (Z.le_refl 0) H0).
Qed.


Lemma shr_spec_any (m e n : Z) :
  (0 <= m)%Z ->
  let '(mrs, e') := shr (shr_record_of_loc m loc_Exact) e n in
  e' = (e + Z.max 0 n)%Z /\ shifted m (Z.max 0 n) mrs.
Proof.
  intros Hm. destruct (Z_le_gt_dec 0 n) as [Hn | Hn].
  - rewrite Z.max_r by exact Hn. now apply shr_spec.
  - rewrite Z.max_l by lia. destruct n; try lia. cbn [shr].
    split; [lia |]. split; cbn; [now rewrite Z.div_1_r | auto].
Qed.

Lemma round_nearest_even_bounds (m : Z) (l : location) :
  (m <= round_nearest_even m l <= m + 1)%Z.
Proof.
  destruct l as [| []]; cbn; try lia. destruct (Z.even m); lia.
Qed.

Lemma round_nearest_even_exact (mrs : shr_record) :
  shr_r mrs = false -> shr_s mrs = false ->
  round_nearest_even (shr_m mrs) (loc_of_shr_record mrs) = shr_m mrs.
Proof. destruct mrs as [m r s]; cbn. now intros -> ->. Qed.

Lemma fexp_le (a b : Z) :
  (a <= b)%Z -> (fexp prec emax a <= fexp prec emax b)%Z.
Proof. unfold fexp. lia. Qed.

(** Rounding the positive number [M * 2^e] does not go beyond a binary64
    number that is at least as large: the result is a zero or a finite
    number of magnitude at most that bound, never an infinity. *)
Lemma binary_round_aux_below
    (sx : bool) (M : positive) (e : Z) (mz : positive) (ez : Z) :
  bounded prec emax mz ez = true ->
  (e <= fexp prec emax (Zdigits2 (Zpos M) + e))%Z ->
  scaled (Zpos M) e <= scaled (Zpos mz) ez ->
  binary_round_aux prec emax sx (Zpos M) e loc_Exact = S754_zero sx \/
  exists mr er,
    binary_round_aux prec emax sx (Zpos M) e loc_Exact
    = S754_finite sx mr er /\
    scaled (Zpos mr) er <= scaled (Zpos mz) ez.
Proof.
  intros Hb He Hle.
  apply andb_true_iff in Hb. destruct Hb as [Hcan Hez].
  apply Z.eqb_eq in Hcan. apply Z.leb_le in Hez.
  change (Zpos (digits2_pos mz)) with (Zdigits2 (Zpos mz)) in Hcan.
  pose proof
    (magnitude_le_digits _ _ _ _ (Pos2Z.is_pos M) (Pos2Z.is_pos mz) Hle)
    as Hmag.
  unfold binary_round_aux, shr_fexp.
  set (e0 := fexp prec emax (Zdigits2 (Zpos M) + e)) in *.
  assert (He0 : (e0 <= ez)%Z) by (rewrite <- Hcan; now apply fexp_le).
  pose proof (shr_spec_any (Zpos M) e (e0 - e) (Pos2Z.is_nonneg M)) as H1.
  destruct (shr (shr_record_of_loc (Zpos M) loc_Exact) e (e0 - e))
    as [mrs1 e1].
  rewrite Z.max_r in H1 by lia. destruct H1 as [-> [Hm1 Hx1]].
  replace (e + (e0 - e))%Z with e0 by lia.
  set (n := (e0 - e)%Z) in *.
  set (m2 := round_nearest_even (shr_m mrs1) (loc_of_shr_record mrs1)).
  assert (Hp : (0 < 2 ^ n)%Z) by (apply Z.pow_pos_nonneg; lia).
  set (k := (Zpos mz * 2 ^ (ez - e0))%Z).
  assert (Hk : scaled k e0 == scaled (Zpos mz) ez).
  { unfold k. rewrite scaled_shift by lia.
    now replace (e0 + (ez - e0))%Z with ez by lia. }
  assert (HMk : (Zpos M <= k * 2 ^ n)%Z).
  { apply (scaled_le_iff _ _ e). rewrite scaled_shift by lia.
    replace (e + n)%Z with e0 by (unfold n; lia). now rewrite Hk. }
  assert (Hm2 : (0 <= m2 <= k)%Z).
  { pose proof (round_nearest_even_bounds (shr_m mrs1) (loc_of_shr_record mrs1))
      as Hr. fold m2 in Hr.
    pose proof (Z.div_pos (Zpos M) (2 ^ n) (Pos2Z.is_nonneg M) Hp).
    split; [lia |].
    destruct (Z.eq_dec (Zpos M mod 2 ^ n) 0) as [E | E].
    - destruct (Hx1 E) as [Hr1 Hs1].
      unfold m2. rewrite round_nearest_even_exact by assumption.
      rewrite Hm1. apply Z.div_le_upper_bound; lia.
    - pose proof (Z.mod_pos_bound (Zpos M) (2 ^ n) Hp).
      pose proof (Z.div_mod (Zpos M) (2 ^ n) ltac:(lia)).
      rewrite Hm1 in Hr. nia. }
  pose proof (shr_spec_any m2 e0 (fexp prec emax (Zdigits2 m2 + e0) - e0)
                (proj1 Hm2)) as H2.
  destruct (shr (shr_record_of_loc m2 loc_Exact) e0
              (fexp prec emax (Zdigits2 m2 + e0) - e0)) as [mrs3 e3].
  destruct H2 as [He3 [Hm3 _]].
  set (n2 := Z.max 0 (fexp prec emax (Zdigits2 m2 + e0) - e0)) in *.
  assert (Hn2 : (0 <= n2)%Z) by (unfold n2; lia).
  assert (Hp2 : (0 < 2 ^ n2)%Z) by (apply Z.pow_pos_nonneg; lia).
  assert (Hm3' : (0 <= shr_m mrs3 /\ shr_m mrs3 * 2 ^ n2 <= m2)%Z).
  { rewrite Hm3. split; [apply Z.div_pos; lia |].
    rewrite Z.mul_comm. apply Z.mul_div_le. lia. }
  destruct (shr_m mrs3) as [| mr | mr] eqn:Emr; [now left | right | lia].
  assert (Hval : scaled (Zpos mr) e3 <= scaled (Zpos mz) ez).
  { rewrite <- Hk, He3, <- scaled_shift by lia.
    apply scaled_le_iff. lia. }
  assert (Hm2pos : (0 < m2)%Z) by nia.
  assert (He3' : (e3 <= emax - prec)%Z).
  { assert (Hd : (Zdigits2 m2 + e0 <= Zdigits2 (Zpos mz) + ez)%Z).
    { assert (Zdigits2 m2 <= Zdigits2 k)%Z by (apply Zdigits2_le; lia).
      unfold k in H. rewrite Zdigits2_shift in H by lia. lia. }
    apply fexp_le in Hd. rewrite Hcan in Hd. unfold n2 in He3. lia. }
  apply Z.leb_le in He3'. rewrite He3'.
  exists mr, e3. split; [reflexivity | exact Hval].
Qed.

Lemma binary_round_below
    (sx : bool) (m : positive) (e : Z) (mz : positive) (ez : Z) :
  bounded prec emax mz ez = true ->
  scaled (Zpos m) e <= scaled (Zpos mz) ez ->
  binary_round prec emax sx m e = S754_zero sx \/
  exists mr er,
    binary_round prec emax sx m e = S754_finite sx mr er /\
    scaled (Zpos mr) er <= scaled (Zpos mz) ez.
Proof.
  intros Hb Hle. unfold binary_round.
  pose proof (shl_align_spec m e (fexp prec emax (Zpos (digits2_pos m) + e)))
    as Ha.
  destruct (shl_align m e (fexp prec emax (Zpos (digits2_pos m) + e)))
    as [m' e'].
  destruct Ha as [He' Hm'].
  assert (Hs : (0 <= e - e')%Z) by lia.
  assert (Hd : (Zdigits2 (Zpos m') + e' = Zpos (digits2_pos m) + e)%Z).
  { rewrite Hm', Zdigits2_shift by lia. cbn [Zdigits2]. lia. }
  apply binary_round_aux_below; [exact Hb | rewrite Hd; lia |].
  rewrite Hm', scaled_shift by lia.
  now replace (e' + (e - e'))%Z with e by lia.
Qed.

(** Rounding a positive number gives a number that is not negative. *)
Lemma binary_round_aux_sign (sx : bool) (M : positive) (e : Z) :
  match binary_round_aux prec emax sx (Zpos M) e loc_Exact with
  | S754_zero s | S754_infinity s | S754_finite s _ _ => s = sx
  | S754_nan => False
  end.
Proof.
  unfold binary_round_aux, shr_fexp.
  set (e0 := fexp prec emax (Zdigits2 (Zpos M) + e)).
  pose proof (shr_spec_any (Zpos M) e (e0 - e) (Pos2Z.is_nonneg M)) as H1.
  destruct (shr (shr_record_of_loc (Zpos M) loc_Exact) e (e0 - e))
    as [mrs1 e1].
  destruct H1 as [_ [Hm1 _]].
  set (m2 := round_nearest_even (shr_m mrs1) (loc_of_shr_record mrs1)).
  assert (Hm2 : (0 <= m2)%Z).
  { pose proof (round_nearest_even_bounds (shr_m mrs1) (loc_of_shr_record mrs1))
      as Hr. fold m2 in Hr.
    assert (0 <= Zpos M / 2 ^ Z.max 0 (e0 - e))%Z
      by (apply Z.div_pos; [lia | apply Z.pow_pos_nonneg; lia]).
    lia. }
  pose proof (shr_spec_any m2 e1 (fexp prec emax (Zdigits2 m2 + e1) - e1) Hm2)
    as H2.
  destruct (shr (shr_record_of_loc m2 loc_Exact) e1
              (fexp prec emax (Zdigits2 m2 + e1) - e1)) as [mrs3 e3].
  destruct H2 as [_ [Hm3 _]].
  assert (0 <= shr_m mrs3)%Z
    by (rewrite Hm3; apply Z.div_pos; [lia | apply Z.pow_pos_nonneg; lia]).
  destruct (shr_m mrs3); [reflexivity | | lia].
  destruct (_ <=? _)%Z; reflexivity.
Qed.


Lemma binary_round_sign (sx : bool) (m : positive) (e : Z) :
  match binary_round prec emax sx m e with
  | S754_zero s | S754_infinity s | S754_finite s _ _ => s = sx
  | S754_nan => False
  end.
Proof.
  unfold binary_round.
  destruct (shl_align m e (fexp prec emax (Zpos (digits2_pos m) + e)))
    as [m' e'].
  apply binary_round_aux_sign.
Qed.

Lemma scaled_add (a b e : Z) : scaled (a + b) e == scaled a e + scaled b e.
Proof. unfold scaled. rewrite inject_Z_plus. ring. Qed.

Lemma scaled_opp (a e : Z) : scaled (- a) e == - scaled a e.
Proof. unfold scaled. rewrite inject_Z_opp. ring. Qed.

Lemma scaled_pos (m : positive) (e : Z) : 0 < scaled (Zpos m) e.
Proof. apply magnitude_pos. Qed.

(** The value of a finite number, with its sign. *)
Lemma SF2Q_finite (s : bool) (m : positive) (e : Z) :
  exists q,
    SF2Q (S754_finite s m e) = Some q /\
    q == scaled (cond_Zopp s (Zpos m)) e.
Proof.
  eexists. split; [reflexivity |].
  destruct s; cbn [cond_Zopp]; [| reflexivity].
  change (Z.opp (Zpos m)) with (Z.opp (Zpos m)). rewrite scaled_opp.
  reflexivity.
Qed.

(** Normalizing [M * 2^e], a number that is at least [-l] for a
    non-negative binary64 number [l], gives a result that is not below
    [-l]. *)
Lemma binary_normalize_not_below (M e : Z) (zb : spec_float) (l : Q) :
  valid_binary zb = true -> SF2Q zb = Some l -> 0 <= l ->
  - l <= scaled M e ->
  SF_not_below l (binary_normalize prec emax M e false).
Proof.
  intros Hv Hl Hl0 Hle. unfold SF_not_below.
  destruct M as [| m | m]; cbn [binary_normalize].
  - cbn. lra.
  - pose proof (binary_round_sign false m e) as Hs.
    destruct (binary_round prec emax false m e) as [s | s | | s mr er];
      cbn [SF2Q]; try subst s.
    + lra.
    + discriminate.
    + contradiction.
    + pose proof (magnitude_pos mr er). lra.
  - assert (Hm : scaled (Zpos m) e <= l).
    { change (Zneg m) with (Z.opp (Zpos m)) in Hle.
      rewrite scaled_opp in Hle. lra. }
    pose proof (scaled_pos m e) as Hpos.
    destruct zb as [sz | sz | | sz mz ez]; cbn in Hl; try discriminate;
      injection Hl as <-.
    + lra.
    + destruct sz; [pose proof (magnitude_pos mz ez); lra |].
      destruct (binary_round_below true m e mz ez Hv Hm)
        as [-> | (mr & er & -> & Hr)]; cbn [SF2Q].
      * lra.
      * unfold scaled in Hr. fold (magnitude mr er) in Hr.
        fold (magnitude mz ez) in Hr. lra.
Qed.

Lemma aligned_value (s : bool) (m : positive) (e e' : Z) :
  (e' <= e)%Z ->
  scaled (cond_Zopp s (Zpos (fst (shl_align m e e')))) e'
  == scaled (cond_Zopp s (Zpos m)) e.
Proof.
  intros He. pose proof (shl_align_spec m e e') as H.
  destruct (shl_align m e e') as [m' e1]. cbn [fst].
  destruct H as [He1 Hm'].
  rewrite Z.min_r in He1 by exact He. subst e1.
  assert (E : scaled (Zpos m') e' == scaled (Zpos m) e).
  { rewrite Hm', scaled_shift by lia.
    now replace (e' + (e - e'))%Z with e by lia. }
  destruct s; cbn [cond_Zopp]; [| exact E].
  now rewrite !scaled_opp, E.
Qed.

(** A sum of two finite numbers that is at least [-l], for a non-negative
    binary64 number [l], is not rounded below [-l]. *)
Lemma SFadd_not_below (x y zb : spec_float) (qx qy l : Q) :
  valid_binary zb = true -> SF2Q zb = Some l -> 0 <= l ->
  SF2Q x = Some qx -> SF2Q y = Some qy -> - l <= qx + qy ->
  SF_not_below l (SFadd prec emax x y).
Proof.
  intros Hv Hl Hl0 Hx Hy Hle.
  destruct x as [sx | sx | | sx mx ex]; try discriminate;
    destruct y as [sy | sy | | sy my ey]; try discriminate.
  - cbn in Hx, Hy. injection Hx as <-. injection Hy as <-.
    destruct sx, sy; cbn; unfold SF_not_below; cbn; lra.
  - cbn in Hx. injection Hx as <-.
    unfold SFadd, SF_not_below. rewrite Hy. lra.
  - cbn in Hy. injection Hy as <-.
    unfold SFadd, SF_not_below. rewrite Hx. lra.
  - destruct (SF2Q_finite sx mx ex) as (qx' & Hx' & Ex).
    destruct (SF2Q_finite sy my ey) as (qy' & Hy' & Ey).
    rewrite Hx in Hx'. injection Hx' as <-.
    rewrite Hy in Hy'. injection Hy' as <-.
    cbn [SFadd]. cbv zeta.
    apply (binary_normalize_not_below _ _ zb l Hv Hl Hl0).
    rewrite scaled_add, !aligned_value by lia. lra.
Qed.

Lemma SFsub_not_below (x y zb : spec_float) (qx qy l : Q) :
  valid_binary zb = true -> SF2Q zb = Some l -> 0 <= l ->
  SF2Q x = Some qx -> SF2Q y = Some qy -> - l <= qx - qy ->
  SF_not_below l (SFsub prec emax x y).
Proof.
  intros Hv Hl Hl0 Hx Hy Hle.
  destruct x as [sx | sx | | sx mx ex]; try discriminate;
    destruct y as [sy | sy | | sy my ey]; try discriminate.
  - cbn in Hx, Hy. injection Hx as <-. injection Hy as <-.
    destruct sx, sy; cbn; unfold SF_not_below; cbn; lra.
  - cbn in Hx. injection Hx as <-.
    destruct (SF2Q_finite sy my ey) as (qy' & Hy' & Ey).
    rewrite Hy in Hy'. injection Hy' as <-.
    destruct (SF2Q_finite (negb sy) my ey) as (qn & Hn & En).
    unfold SFsub, SF_not_below. rewrite Hn.
    assert (qn == - qy).
    { rewrite En, Ey. destruct sy; cbn [negb cond_Zopp].
      - change (Zpos my) with (Z.opp (Z.opp (Zpos my))) at 1.
        rewrite scaled_opp. reflexivity.
      - rewrite scaled_opp. reflexivity. }
    lra.
  - cbn in Hy. injection Hy as <-.
    unfold SFsub, SF_not_below. rewrite Hx. lra.
  - destruct (SF2Q_finite sx mx ex) as (qx' & Hx' & Ex).
    destruct (SF2Q_finite sy my ey) as (qy' & Hy' & Ey).
    rewrite Hx in Hx'. injection Hx' as <-.
    rewrite Hy in Hy'. injection Hy' as <-.
    cbn [SFsub]. cbv zeta.
    apply (binary_normalize_not_below _ _ zb l Hv Hl Hl0).
    unfold Z.sub. rewrite scaled_add, scaled_opp, !aligned_value by lia. lra.
Qed.

End Rounding.

(* ================================================================= *)
(** ** The member functions of the accounts *)

Section BankingFacts.
Import banking.
Local Open Scope float_scope.

Lemma savings_with_base_same (s : SavingsAccount.t) :
  SavingsAccount.with_base s (SavingsAccount.base s) = s.
Proof. destruct s; reflexivity. Qed.

Lemma checking_with_base_same (c : CheckingAccount.t) :
  CheckingAccount.with_base c (CheckingAccount.base c) = c.
Proof. destruct c; reflexivity. Qed.

Lemma Account_deposit_pos (amount : float) (this : Account.t) :
  (0 <? amount) = true ->
  Account.deposit amount this =
  Account.set_balance this (Account.balance_ this + amount).
Proof. unfold Account.deposit. now intros ->. Qed.

Lemma Account_deposit_not_pos (amount : float) (this : Account.t) :
  (0 <? amount) = false -> Account.deposit amount this = this.
Proof. unfold Account.deposit. now intros ->. Qed.

Lemma Account_deposit_frame (amount : float) (this : Account.t) :
  Account.id_ (Account.deposit amount this) = Account.id_ this /\
  Account.name_ (Account.deposit amount this) = Account.name_ this.
Proof.
  unfold Account.deposit. destruct (0 <? amount); split; reflexivity.
Qed.

Lemma Account_withdraw_frame (amount : float) (this : Account.t) :
  Account.id_ (Account.withdraw amount this) = Account.id_ this /\
  Account.name_ (Account.withdraw amount this) = Account.name_ this.
Proof.
  unfold Account.withdraw.
  destruct ((0 <? amount) && (amount <=? Account.balance_ this));
    split; reflexivity.
Qed.

Lemma Checking_withdraw_frame (amount : float) (c : CheckingAccount.t) :
  Account.id_ (CheckingAccount.base (CheckingAccount.withdraw amount c)) =
    Account.id_ (CheckingAccount.base c) /\
  Account.name_ (CheckingAccount.base (CheckingAccount.withdraw amount c)) =
    Account.name_ (CheckingAccount.base c) /\
  CheckingAccount.overdraftLimit_ (CheckingAccount.withdraw amount c) =
    CheckingAccount.overdraftLimit_ c.
Proof.
  unfold CheckingAccount.withdraw. cbv zeta.
  destruct ((0 <? amount) && _); repeat split; reflexivity.
Qed.

Lemma Checking_deposit_limit (amount : float) (c : CheckingAccount.t) :
  CheckingAccount.overdraftLimit_ (CheckingAccount.deposit amount c) =
  CheckingAccount.overdraftLimit_ c.
Proof. reflexivity. Qed.

Lemma apply_op_limit (o : op) (c : CheckingAccount.t) :
  CheckingAccount.overdraftLimit_ (apply_op o c) =
  CheckingAccount.overdraftLimit_ c.
Proof.
  destruct o as [a | a]; cbn [apply_op].
  - apply Checking_deposit_limit.
  - apply (Checking_withdraw_frame a c).
Qed.

End BankingFacts.

(* ================================================================= *)
(** ** Deposits and withdrawals *)

Section Withdrawals.
Import banking Binary64.
Local Open Scope float_scope.

(** C2, amended.  For every savings account with balance [B] and every
    amount [a], with the comparisons and the subtraction of [double]:
    [withdraw(a)] sets the balance to the double [B - a], the difference
    rounded to nearest, when [a > 0] and [B >= a], and in every other case
    (a NaN amount included) leaves the whole account as it was.  The call
    returns normally in both cases: nothing is signalled.  The same holds
    when the call is made through an [Account*], which reaches
    [Account::withdraw].  The balance has decreased by exactly [a], as a
    number, when the subtraction is exact. *)
Theorem savings_withdraw_spec (s : SavingsAccount.t) (a : float) :
  let B := SavingsAccount.getBalance s in
  let s' := SavingsAccount.withdraw a s in
  ((0 <? a) = true /\ (a <=? B) = true ->
   SavingsAccount.getBalance s' = B - a) /\
  (~ ((0 <? a) = true /\ (a <=? B) = true) -> s' = s) /\
  withdraw a (Savings s) = Savings s' /\
  getBalance (withdraw a (Savings s)) =
    (if (0 <? a) && (a <=? B) then B - a else B) /\
  ((0 <? a) = true /\ (a <=? B) = true -> exact_sub B a = true ->
   exists b q r,
     value B = Some b /\ value a = Some q /\
     value (SavingsAccount.getBalance s') = Some r /\ (r == b - q)%Q).
Proof.
  cbv zeta.
  unfold withdraw, getBalance, SavingsAccount.getBalance,
    Account.getBalance, base, SavingsAccount.withdraw, Account.withdraw.
  set (B := Account.balance_ (SavingsAccount.base s)).
  split; [| split; [| split; [| split]]].
  - intros [-> ->]. reflexivity.
  - intros H. destruct (0 <? a), (a <=? B); cbn [andb];
      try apply savings_with_base_same.
    exfalso. apply H. split; reflexivity.
  - reflexivity.
  - destruct ((0 <? a) && (a <=? B)); reflexivity.
  - intros [-> ->] Hex. cbn.
    destruct (exactly_spec _ _ _ _ Hex) as (b & q & r & Hb & Hq & Hr & E).
    exists b, q, r. auto.
Qed.

(** C3, amended.  For every account, savings or checking, and every
    amount [a], with the comparison and the addition of [double]:
    [deposit(a)] sets the balance to the double [B + a], the sum rounded
    to nearest, when [a > 0]; when [a <= 0], and more generally whenever
    [a > 0] is false (a NaN amount), the account is left as it was.  The
    call returns normally: nothing is signalled.  The balance has
    increased by exactly [a], as a number, when the addition is exact. *)
Theorem deposit_spec (acct : account) (a : float) :
  ((0 <? a) = true ->
   getBalance (deposit a acct) = getBalance acct + a) /\
  ((a <=? 0) = true -> deposit a acct = acct) /\
  ((0 <? a) = false -> deposit a acct = acct) /\
  ((0 <? a) = true -> exact_add (getBalance acct) a = true ->
   exists b q r,
     value (getBalance acct) = Some b /\ value a = Some q /\
     value (getBalance (deposit a acct)) = Some r /\ (r == b + q)%Q).
Proof.
  assert (Hno : (0 <? a) = false -> deposit a acct = acct).
  { intros H. destruct acct as [s | c]; cbn [deposit];
      unfold SavingsAccount.deposit, CheckingAccount.deposit;
      rewrite Account_deposit_not_pos by exact H;
      [rewrite savings_with_base_same | rewrite checking_with_base_same];
      reflexivity. }
  assert (Hyes : (0 <? a) = true ->
                 getBalance (deposit a acct) = getBalance acct + a).
  { intros H. destruct acct as [s | c]; cbn [deposit];
      unfold SavingsAccount.deposit, CheckingAccount.deposit;
      rewrite Account_deposit_pos by exact H; reflexivity. }
  split; [| split; [| split]].
  - exact Hyes.
  - intros H. apply Hno, leb_zero_not_pos, H.
  - exact Hno.
  - intros H Hex. rewrite (Hyes H).
    destruct (exactly_spec _ _ _ _ Hex) as (b & q & r & Hb & Hq & Hr & E).
    exists b, q, r. auto.
Qed.

(** C9.  [deposit] and [withdraw] (the one of [Account], which a
    savings account inherits, and the override of [CheckingAccount]) and
    [applyInterest] leave [id_], [name_], [interestRate_] and
    [overdraftLimit_] as they were, and the dynamic type of the object
    with them: only [balance_] can change. *)
Theorem operations_change_only_balance (acct : account) (a : float) :
  (getId (deposit a acct) = getId acct /\
   getName (deposit a acct) = getName acct /\
   interestRate (deposit a acct) = interestRate acct /\
   overdraftLimit (deposit a acct) = overdraftLimit acct /\
   getAccountType (deposit a acct) = getAccountType acct) /\
  (getId (withdraw a acct) = getId acct /\
   getName (withdraw a acct) = getName acct /\
   interestRate (withdraw a acct) = interestRate acct /\
   overdraftLimit (withdraw a acct) = overdraftLimit acct /\
   getAccountType (withdraw a acct) = getAccountType acct) /\
  (forall s : SavingsAccount.t,
     let s' := SavingsAccount.applyInterest s in
     Account.id_ (SavingsAccount.base s') =
       Account.id_ (SavingsAccount.base s) /\
     Account.name_ (SavingsAccount.base s') =
       Account.name_ (SavingsAccount.base s) /\
     SavingsAccount.interestRate_ s' = SavingsAccount.interestRate_ s) /\
  (forall this : Account.t,
     Account.id_ (Account.withdraw a this) = Account.id_ this /\
     Account.name_ (Account.withdraw a this) = Account.name_ this).
Proof.
  split; [| split; [| split]].
  - destruct acct as [s | c]; cbn;
      [ destruct (Account_deposit_frame a (SavingsAccount.base s))
      | destruct (Account_deposit_frame a (CheckingAccount.base c)) ];
      unfold Account.getId, Account.getName; auto.
  - destruct acct as [s | c];
      cbn [withdraw getId getName base interestRate overdraftLimit
           getAccountType].
    + destruct (Account_withdraw_frame a (SavingsAccount.base s)).
      unfold getId, getName, base, Account.getId, Account.getName; auto.
    + destruct (Checking_withdraw_frame a c) as (H1 & H2 & H3).
      unfold getId, getName, base, Account.getId, Account.getName.
      rewrite H1, H2, H3. auto.
  - intros s. cbv zeta. repeat split; reflexivity.
  - intros this. apply Account_withdraw_frame.
Qed.

End Withdrawals.

(* ================================================================= *)
(** ** The overdraft limit *)

Section Overdraft.
Import banking Binary64 Guard.
Local Open Scope float_scope.

(** A positive double is a positive finite number or [+infinity]. *)
Lemma positive_cases (a : float) :
  (0 <? a) = true ->
  (exists q, value a = Some q /\ (0 < q)%Q) \/
  Prim2SF a = S754_infinity false.
Proof.
  rewrite ltb_spec. unfold value.
  change (Prim2SF 0) with (S754_zero false).
  destruct (Prim2SF a) as [s | [] | | [] m e]; cbn; try discriminate;
    intros _.
  - now right.
  - left. eexists. split; [reflexivity | apply magnitude_pos].
Qed.

(** A deposit does not bring the balance below [-l]. *)
Lemma deposit_not_below (b a L : float) (l : Q) :
  value L = Some l -> (0 <= l)%Q ->
  (0 <? a) = true ->
  not_below l b -> not_below l (b + a).
Proof.
  unfold not_below. intros Hl Hl0 Hpos Hb. rewrite add_spec. unfold SF64add.
  destruct (positive_cases a Hpos) as [(qa & Ha & Hqa) | Ha].
  - unfold SF_not_below in Hb.
    destruct (SF2Q (Prim2SF b)) as [qb |] eqn:Eb.
    + apply (SFadd_not_below _ _ (Prim2SF L) qb qa l);
        auto using Prim2SF_valid. lra.
    + unfold value in Ha.
      destruct (Prim2SF b) as [s | [] | | s m e]; try discriminate;
        try contradiction;
        destruct (Prim2SF a) as [s' | s' | | s' m' e']; try discriminate;
        cbn; unfold SF_not_below; cbn; discriminate.
  - rewrite Ha. unfold SF_not_below in *.
    destruct (Prim2SF b) as [s | [] | | s m e]; cbn in *;
      try discriminate; try contradiction.
Qed.

(** A withdrawal that passed the test of [CheckingAccount::withdraw] does
    not leave less than [-l] when its amount was within the limit,
    whatever the balance was. *)
Lemma withdrawal_not_below (b a L : float) (l : Q) :
  value L = Some l -> (0 <= l)%Q ->
  (0 <? a) = true -> (a <=? b + L) = true ->
  within_limit b L a = true ->
  not_below l (b - a).
Proof.
  unfold not_below. intros Hl Hl0 Hpos Hle Hin.
  rewrite sub_spec. unfold SF64sub.
  unfold within_limit in Hin. rewrite Hl in Hin.
  destruct (value b) as [qb |] eqn:Eb.
  - destruct (value a) as [qa |] eqn:Ea; [| discriminate].
    apply Qle_bool_iff in Hin.
    apply (SFsub_not_below _ _ (Prim2SF L) qb qa l);
      auto using Prim2SF_valid. lra.
  - unfold value in Eb, Hl.
    rewrite leb_spec, add_spec in Hle. unfold SF64add, SFleb in Hle.
    destruct (positive_cases a Hpos) as [(qa & Ha & Hqa) | Ha];
      [unfold value in Ha |];
      destruct (Prim2SF b) as [s | [] | | s m e]; try discriminate;
      destruct (Prim2SF L) as [sl | sl | | sl ml el]; try discriminate;
      destruct (Prim2SF a) as [s' | [] | | [] m' e']; try discriminate;
      cbn in Hle; try discriminate;
      cbn; unfold SF_not_below; cbn; discriminate.
Qed.

(** The test ensures that the amount is within the limit when the sum it
    computes was not rounded upwards. *)
Lemma test_within_limit (b a L : float) :
  (0 <? a) = true -> (a <=? b + L) = true ->
  sum_not_rounded_up b L = true -> within_limit b L a = true.
Proof.
  unfold sum_not_rounded_up, within_limit. intros Hpos Hle Hsum.
  destruct (value b) as [qb |]; [| reflexivity].
  destruct (value L) as [l |]; [| discriminate].
  destruct (value (b + L)) as [s |] eqn:Es; [| discriminate].
  apply Qle_bool_iff in Hsum.
  destruct (positive_cases a Hpos) as [(qa & Ha & Hqa) | Ha].
  - rewrite Ha. apply Qle_bool_iff.
    apply (leb_value _ _ _ _ Ha Es) in Hle. lra.
  - exfalso. rewrite leb_spec, Ha in Hle. unfold value in Es.
    destruct (Prim2SF (b + L)) as [s' | s' | | s' m' e'];
      try discriminate; cbn in Hle; discriminate.
Qed.

(** What is not below [-l] does not compare below [-L]. *)
Lemma not_below_ltb (b L : float) (l : Q) :
  value L = Some l -> not_below l b -> (b <? - L) = false.
Proof.
  unfold not_below, SF_not_below. intros Hl Hb.
  destruct (SF2Q (Prim2SF b)) as [q |] eqn:Eb.
  - destruct (value_opp _ _ Hl) as (l' & Hl' & El).
    destruct (b <? - L) eqn:E; [| reflexivity].
    apply (ltb_value _ _ _ _ Eb Hl') in E. lra.
  - rewrite ltb_spec. unfold SFltb.
    destruct (Prim2SF b) as [s | [] | | s m e]; try discriminate;
      try contradiction.
    + destruct (Prim2SF (- L)) as [s' | [] | | s' m' e']; reflexivity.
    + reflexivity.
Qed.

Lemma not_below_value (b : float) (l q : Q) :
  not_below l b -> value b = Some q -> (- l <= q)%Q.
Proof.
  unfold not_below, SF_not_below, value. intros H E.
  now rewrite E in H.
Qed.

(** Withdrawing all that the test allows, [b + limit], passes the test
    and leaves exactly [-limit] when the two operations are exact. *)
Lemma exact_all_withdrawn (b limit : float) :
  exact_add b limit = true -> exact_sub b (b + limit) = true ->
  (b + limit <=? b + limit) = true /\
  exists l q,
    value limit = Some l /\ value (b - (b + limit)) = Some q /\
    (q == - l)%Q.
Proof.
  intros Hadd Hsub.
  destruct (exactly_spec _ _ _ _ Hadd) as (p & l & s & Hb & Hl & Hs & Es).
  destruct (exactly_spec _ _ _ _ Hsub) as (p' & s' & d & Hb' & Hs' & Hd & Ed).
  rewrite Hb in Hb'. injection Hb' as <-.
  rewrite Hs in Hs'. injection Hs' as <-.
  split.
  - apply (leb_value _ _ _ _ Hs Hs). lra.
  - exists l, d. repeat split; try assumption. lra.
Qed.

(** An exact sum is not rounded upwards. *)
Lemma exact_add_not_rounded_up (b L : float) :
  exact_add b L = true -> sum_not_rounded_up b L = true.
Proof.
  intros H.
  destruct (exactly_spec _ _ _ _ H) as (p & l & s & Hb & Hl & Hs & Es).
  unfold sum_not_rounded_up. rewrite Hb, Hl, Hs.
  apply Qle_bool_iff. lra.
Qed.

Lemma apply_op_not_below (o : op) (c : CheckingAccount.t) (l : Q) :
  value (CheckingAccount.overdraftLimit_ c) = Some l -> (0 <= l)%Q ->
  accepted_within_limit o c = true ->
  not_below l (CheckingAccount.getBalance c) ->
  not_below l (CheckingAccount.getBalance (apply_op o c)).
Proof.
  intros Hl Hl0 Hok Hb.
  unfold accepted_within_limit, CheckingAccount.getBalance,
    Account.getBalance in *.
  destruct o as [a | a]; cbn [apply_op].
  - unfold CheckingAccount.deposit, Account.deposit.
    destruct (0 <? a) eqn:Hpos; cbn; [| exact Hb].
    exact (deposit_not_below _ _ _ _ Hl Hl0 Hpos Hb).
  - unfold CheckingAccount.withdraw.
    destruct (0 <? a) eqn:Hpos; cbn [andb] in *; [| exact Hb].
    destruct (a <=? _ + _) eqn:Hle; cbn; [| exact Hb].
    exact (withdrawal_not_below _ _ _ _ Hl Hl0 Hpos Hle Hok).
Qed.

Lemma run_not_below (ops : list op) (c : CheckingAccount.t) (l : Q) :
  value (CheckingAccount.overdraftLimit_ c) = Some l -> (0 <= l)%Q ->
  all_within_limit ops c = true ->
  not_below l (CheckingAccount.getBalance c) ->
  not_below l (CheckingAccount.getBalance (run ops c)).
Proof.
  revert c. induction ops as [| o ops IH]; intros c Hl Hl0 Hok Hb.
  - exact Hb.
  - cbn [run all_within_limit] in *. apply andb_true_iff in Hok.
    destruct Hok as [Ho Hrest].
    apply IH; [now rewrite apply_op_limit | exact Hl0 | exact Hrest |].
    now apply apply_op_not_below.
Qed.

Lemma run_limit (ops : list op) (c : CheckingAccount.t) :
  CheckingAccount.overdraftLimit_ (run ops c) =
  CheckingAccount.overdraftLimit_ c.
Proof.
  revert c. induction ops as [| o ops IH]; intros c; cbn [run].
  - reflexivity.
  - now rewrite IH, apply_op_limit.
Qed.

(** C1, amended.  For every checking account with balance [B] and
    overdraft limit [L] and every amount [a], with the comparisons, the
    sum and the difference of [double]: [withdraw(a)] sets the balance
    to [B - a] when [a > 0] and [B + L >= a], and in every other case (a
    NaN included) leaves the whole account as it was, silently.  The new
    balance may be negative.  For a finite limit [L >= 0] it is not below
    [-L] provided the amount is within the limit as a number, at most
    the exact sum of [B] and [L]; the test ensures that when the double
    sum [B + L] it computes was not rounded upwards.  And [-L] itself is
    what withdrawing [B + L] leaves, when that amount is positive and the
    sum and the difference are exact. *)
Theorem checking_withdraw_spec (c : CheckingAccount.t) (a : float) :
  let B := CheckingAccount.getBalance c in
  let L := CheckingAccount.overdraftLimit_ c in
  let c' := CheckingAccount.withdraw a c in
  ((0 <? a) = true /\ (a <=? B + L) = true ->
   CheckingAccount.getBalance c' = B - a) /\
  (~ ((0 <? a) = true /\ (a <=? B + L) = true) -> c' = c) /\
  withdraw a (Checking c) = Checking c' /\
  (forall l : Q,
     value L = Some l -> (0 <= l)%Q ->
     (0 <? a) = true /\ (a <=? B + L) = true ->
     within_limit B L a = true \/ sum_not_rounded_up B L = true ->
     (CheckingAccount.getBalance c' <? - L) = false /\
     not_below l (CheckingAccount.getBalance c') /\
     (forall q, value (CheckingAccount.getBalance c') = Some q ->
                (- l <= q)%Q)) /\
  ((0 <? B + L) = true ->
   exact_add B L = true -> exact_sub B (B + L) = true ->
   exists l q,
     value L = Some l /\
     value (CheckingAccount.getBalance
              (CheckingAccount.withdraw (B + L) c)) = Some q /\
     (q == - l)%Q).
Proof.
  cbv zeta.
  unfold CheckingAccount.getBalance, Account.getBalance,
    CheckingAccount.withdraw.
  set (B := Account.balance_ (CheckingAccount.base c)).
  set (L := CheckingAccount.overdraftLimit_ c).
  split; [| split; [| split; [| split]]].
  - intros [-> ->]. reflexivity.
  - intros H. destruct (0 <? a), (a <=? B + L); cbn [andb];
      try reflexivity.
    exfalso. apply H. split; reflexivity.
  - reflexivity.
  - intros l Hl Hl0 [Hpos Hle] Hin. rewrite Hpos, Hle. cbn.
    assert (Hin' : within_limit B L a = true)
      by (destruct Hin as [H | H];
          [exact H | exact (test_within_limit _ _ _ Hpos Hle H)]).
    pose proof (withdrawal_not_below _ _ _ _ Hl Hl0 Hpos Hle Hin') as Hnb.
    split; [exact (not_below_ltb _ _ _ Hl Hnb) |].
    split; [exact Hnb |].
    intros q. apply not_below_value, Hnb.
  - intros Hpos Hadd Hsub.
    destruct (exact_all_withdrawn _ _ Hadd Hsub)
      as (Hle & l & q & Hl & Hq & E).
    rewrite Hpos, Hle. cbn. exists l, q. auto.
Qed.

(** C5, amended.  For every checking account created with a finite
    overdraft limit [L >= 0] (its balance starts at zero) and every
    finite sequence of deposits and withdrawals, of any amounts, in which
    each withdrawal that passes the test is within the limit as a number
    (its amount is at most the exact sum of the balance and of [L]; the
    test compares it with the double sum, which may have been rounded
    upwards), the balance after the sequence is not below [-L]: the
    comparison [balance < -L] of [double] is false, the balance is not
    [-infinity], and when it is finite it stands for at least [-L]. *)
Theorem checking_never_below_limit
    (id : Z) (name : string) (L : float) (l : Q) (ops : list op) :
  value L = Some l -> (0 <= l)%Q ->
  all_within_limit ops (CheckingAccount.ctor id name L) = true ->
  let c' := run ops (CheckingAccount.ctor id name L) in
  CheckingAccount.overdraftLimit_ c' = L /\
  (CheckingAccount.getBalance c' <? - L) = false /\
  not_below l (CheckingAccount.getBalance c') /\
  (forall q, value (CheckingAccount.getBalance c') = Some q ->
             (- l <= q)%Q).
Proof.
  intros Hl Hl0 Hok c'.
  assert (Hnb : not_below l (CheckingAccount.getBalance c')).
  { apply run_not_below; [exact Hl | exact Hl0 | exact Hok |].
    unfold not_below, SF_not_below. cbn. lra. }
  split; [apply run_limit |].
  split; [exact (not_below_ltb _ _ _ Hl Hnb) |].
  split; [exact Hnb |].
  intros q. apply not_below_value, Hnb.
Qed.

End Overdraft.

Section OverdraftExamples.
Import banking Binary64 Guard.
Local Open Scope float_scope.

(** C1: scenario 2 of the ledger.  With 500 on the account and a limit of
    500, withdrawing 800 passes the test, 800 is within the limit, and
    the balance becomes -300, which is not below -500; withdrawing 1000
    instead leaves -500. *)
Lemma checking_withdraw_spec_witness :
  let c :=
    CheckingAccount.deposit 500 (CheckingAccount.ctor 2 "Bob Jones" 500) in
  let c' := CheckingAccount.withdraw 800 c in
  ((0 <? 800) = true /\
   (800 <=? CheckingAccount.getBalance c
            + CheckingAccount.overdraftLimit_ c) = true) /\
  within_limit (CheckingAccount.getBalance c)
    (CheckingAccount.overdraftLimit_ c) 800 = true /\
  CheckingAccount.getBalance c' = -300 /\
  (CheckingAccount.getBalance c' <? -500) = false /\
  CheckingAccount.getBalance (CheckingAccount.withdraw 1000 c) = -500.
Proof.
  cbv zeta.
  pose proof
    (checking_withdraw_spec
       (CheckingAccount.deposit 500
          (CheckingAccount.ctor 2 "Bob Jones" 500)) 800) as H.
  cbv zeta in H. destruct H as (H1 & _ & _ & H4 & _).
  assert (G : (0 <? 800) = true /\
              (800 <=? CheckingAccount.getBalance
                         (CheckingAccount.deposit 500
                            (CheckingAccount.ctor 2 "Bob Jones" 500))
                       + CheckingAccount.overdraftLimit_
                           (CheckingAccount.deposit 500
                              (CheckingAccount.ctor 2 "Bob Jones" 500)))
              = true)
    by (split; vm_compute; reflexivity).
  split; [exact G |].
  split; [vm_compute; reflexivity |].
  split; [rewrite (H1 G); vm_compute; reflexivity |].
  split; [| reflexivity].
  refine (proj1 (H4 _ _ _ G (or_introl _)));
    [vm_compute; reflexivity | vm_compute; discriminate
    | vm_compute; reflexivity].
Defined.

(** C1 fails as stated.  A checking account with a limit of 0.99 and a
    balance of 0.10: [withdraw(1.09)] passes the test, because the sum
    [0.10 + 0.99] rounds up to the double 1.09, and the balance becomes
    [0.10 - 1.09 = -0.9900000000000001], which is below [-0.99], for the
    comparison of [double] and as a number. *)
Lemma checking_withdraw_below_limit :
  let c :=
    CheckingAccount.deposit 0.1 (CheckingAccount.ctor 2 "Bob Jones" 0.99) in
  let B := CheckingAccount.getBalance c in
  let L := CheckingAccount.overdraftLimit_ c in
  let c' := CheckingAccount.withdraw 1.09 c in
  B = 0.1 /\ L = 0.99 /\
  (0 <? 1.09) = true /\ (1.09 <=? B + L) = true /\
  sum_not_rounded_up B L = false /\ within_limit B L 1.09 = false /\
  CheckingAccount.getBalance c' = -0.9900000000000001 /\
  (CheckingAccount.getBalance c' <? - L) = true /\
  exists q l,
    value (CheckingAccount.getBalance c') = Some q /\
    value L = Some l /\ (q < - l)%Q.
Proof.
  cbv zeta. repeat (split; [vm_compute; reflexivity |]).
  eexists. eexists.
  split; [vm_compute; reflexivity |].
  split; [vm_compute; reflexivity |].
  vm_compute. reflexivity.
Qed.

(** C5: a limit of 500.  The deposit of 0.20 is rounded, and so is,
    upwards, the sum computed by the test of the first withdrawal; the
    withdrawals of 800.25 and 700 are within the limit, the withdrawal of
    0.10 that follows is refused.  The balance is then about -499.95, not
    below -500. *)
Lemma checking_never_below_limit_witness :
  let c := CheckingAccount.ctor 2 "Bob Jones" 500 in
  let ops :=
    [Deposit 1000.10; Deposit 0.20; Withdraw 800.25; Withdraw 700;
     Withdraw 0.10] in
  exists l,
    value 500 = Some l /\ (0 <= l)%Q /\ all_within_limit ops c = true /\
    exact_add 1000.10 0.20 = false /\
    sum_not_rounded_up (1000.10 + 0.20) 500 = false /\
    CheckingAccount.getBalance (run ops c) = -499.94999999999993 /\
    CheckingAccount.overdraftLimit_ (run ops c) = 500 /\
    (CheckingAccount.getBalance (run ops c) <? -500) = false /\
    not_below l (CheckingAccount.getBalance (run ops c)) /\
    (forall q, value (CheckingAccount.getBalance (run ops c)) = Some q ->
               (- l <= q)%Q).
Proof.
  cbv zeta. eexists.
  split; [vm_compute; reflexivity |].
  split; [vm_compute; discriminate |].
  split; [vm_compute; reflexivity |].
  split; [vm_compute; reflexivity |].
  split; [vm_compute; reflexivity |].
  split; [vm_compute; reflexivity |].
  apply (checking_never_below_limit 2 "Bob Jones" 500 _
           [Deposit 1000.10; Deposit 0.20; Withdraw 800.25; Withdraw 700;
            Withdraw 0.10]).
  - vm_compute. reflexivity.
  - vm_compute. discriminate.
  - vm_compute. reflexivity.
Defined.

(** C5 fails as stated.  A checking account created with a limit of 0.99:
    after [deposit(0.10)] and [withdraw(1.09)] the balance is
    [-0.9900000000000001], below [-0.99]: the test of the withdrawal
    compares 1.09 with the rounded sum [0.10 + 0.99], which is the double
    1.09, so the withdrawal goes through. *)
Lemma checking_run_below_limit :
  let c := CheckingAccount.ctor 2 "Bob Jones" 0.99 in
  let c' := run [Deposit 0.1; Withdraw 1.09] c in
  (0 <=? 0.99) = true /\
  CheckingAccount.getBalance c = 0 /\
  CheckingAccount.getBalance c' = -0.9900000000000001 /\
  (CheckingAccount.getBalance c' <? - 0.99) = true /\
  exists q l,
    value (CheckingAccount.getBalance c') = Some q /\
    value 0.99 = Some l /\ (q < - l)%Q.
Proof.
  cbv zeta. repeat (split; [vm_compute; reflexivity |]).
  eexists. eexists.
  split; [vm_compute; reflexivity |].
  split; [vm_compute; reflexivity |].
  vm_compute. reflexivity.
Qed.

End OverdraftExamples.

(* ================================================================= *)
(** ** Interest *)

Section Interest.
Import banking Binary64.
Local Open Scope float_scope.

(** C4, amended.  For every savings account with balance [B] and rate
    [r], a call of [applyInterest()] sets the balance, unconditionally, to
    [B + B * r] evaluated in [double]: the product is rounded, then the
    sum.  A second call does the same to the new balance (it compounds,
    there is no guard against a repeated call).  The result stands for
    exactly [B * (1 + r)] when the product and the sum are computed
    without rounding error. *)
Theorem applyInterest_spec (s : SavingsAccount.t) :
  let B := SavingsAccount.getBalance s in
  let r := SavingsAccount.interestRate_ s in
  let once := SavingsAccount.getBalance (SavingsAccount.applyInterest s) in
  let twice :=
    SavingsAccount.getBalance
      (SavingsAccount.applyInterest (SavingsAccount.applyInterest s)) in
  once = B + B * r /\
  twice = once + once * r /\
  (exact_mul B r = true -> exact_add B (B * r) = true ->
   exists b q q',
     value B = Some b /\ value r = Some q /\ value once = Some q' /\
     (q' == b * (1 + q))%Q).
Proof.
  cbv zeta. split; [reflexivity | split; [reflexivity |]].
  unfold SavingsAccount.getBalance, Account.getBalance,
    SavingsAccount.applyInterest. cbn.
  intros Hmul Hadd.
  destruct (exactly_spec _ _ _ _ Hmul) as (b & q & p & Hb & Hr & Hp & Ep).
  destruct (exactly_spec _ _ _ _ Hadd) as (b' & p' & t & Hb' & Hp' & Ht & Et).
  rewrite Hb in Hb'. injection Hb' as <-.
  rewrite Hp in Hp'. injection Hp' as <-.
  exists b, q, t. repeat split; try assumption.
  rewrite Et, Ep. ring.
Qed.

(** C4: 1000 at a rate of 1/16.  The product 62.5 and the sum 1062.5 are
    exact; a second call gives 1128.90625. *)
Lemma applyInterest_spec_witness :
  let s :=
    SavingsAccount.deposit 1000
      (SavingsAccount.ctor 1 "Alice Smith" 0.0625) in
  exact_mul 1000 0.0625 = true /\ exact_add 1000 (1000 * 0.0625) = true /\
  SavingsAccount.getBalance (SavingsAccount.applyInterest s) = 1062.5 /\
  SavingsAccount.getBalance
    (SavingsAccount.applyInterest (SavingsAccount.applyInterest s))
  = 1128.90625 /\
  exists b q q',
    value 1000 = Some b /\ value 0.0625 = Some q /\
    value 1062.5 = Some q' /\ (q' == b * (1 + q))%Q.
Proof.
  cbv zeta.
  pose proof
    (applyInterest_spec
       (SavingsAccount.deposit 1000
          (SavingsAccount.ctor 1 "Alice Smith" 0.0625))) as H.
  cbv zeta in H. destruct H as (H1 & H2 & H3).
  split; [vm_compute; reflexivity |].
  split; [vm_compute; reflexivity |].
  split; [rewrite H1; vm_compute; reflexivity |].
  split; [rewrite H2, H1; vm_compute; reflexivity |].
  apply H3; vm_compute; reflexivity.
Defined.

(** C4 fails as stated.  A savings account holding 100 at a rate of 0.1:
    [applyInterest()] leaves [100 + 100 * 0.1 = 110], whereas
    [100 * (1 + 0.1)] is the double 110.00000000000001; and 110 is not the
    number [B * (1 + r)] either, the double 0.1 being slightly above one
    tenth. *)
Lemma applyInterest_is_not_B_times_1_plus_r :
  let s :=
    SavingsAccount.deposit 100 (SavingsAccount.ctor 1 "Alice Smith" 0.1) in
  let B := SavingsAccount.getBalance s in
  let r := SavingsAccount.interestRate_ s in
  let once := SavingsAccount.getBalance (SavingsAccount.applyInterest s) in
  B = 100 /\ r = 0.1 /\ once = 110 /\
  B * (1 + r) = 110.00000000000001 /\
  (once =? B * (1 + r)) = false /\
  once <> B * (1 + r) /\
  exists b q q',
    value B = Some b /\ value r = Some q /\ value once = Some q' /\
    ~ (q' == b * (1 + q))%Q.
Proof.
  cbv zeta. repeat (split; [vm_compute; reflexivity |]).
  split.
  - intros H. apply (f_equal Prim2SF) in H. vm_compute in H. discriminate.
  - do 3 eexists.
    split; [vm_compute; reflexivity |].
    split; [vm_compute; reflexivity |].
    split; [vm_compute; reflexivity |].
    vm_compute. discriminate.
Qed.

End Interest.

(* ================================================================= *)
(** ** C strings and the name of an account *)

Section CStringFacts.
Import CString.

Lemma c_str_before_NUL (w rest : list byte) :
  c_str (w ++ NUL :: rest) = c_str w.
Proof.
  induction w as [| c w IH]; cbn.
  - reflexivity.
  - destruct (Byte.eqb c NUL); [reflexivity | now rewrite IH].
Qed.

Lemma strncpy_written_length (src : list byte) (n : nat) :
  List.length (strncpy_written src n) = n.
Proof.
  revert src. induction n as [| n IH]; intros src; cbn [strncpy_written].
  - reflexivity.
  - destruct src as [| c rest]; [apply repeat_length |].
    destruct (Byte.eqb c NUL); [apply repeat_length |].
    cbn. now rewrite IH.
Qed.

(** The string [strncpy] leaves in the bytes it wrote is the source string
    cut after [n] characters. *)
Lemma c_str_strncpy_written (src : list byte) (n : nat) :
  c_str (strncpy_written src n) = firstn n (c_str src).
Proof.
  revert src. induction n as [| n IH]; intros src.
  - reflexivity.
  - destruct src as [| c rest].
    + reflexivity.
    + cbn [strncpy_written c_str].
      destruct (Byte.eqb c NUL) eqn:E; [reflexivity |].
      cbn [c_str firstn]. rewrite E, IH. reflexivity.
Qed.

Lemma firstn_exact {A : Type} (w rest : list A) (n : nat) :
  List.length w = n -> firstn n (w ++ rest) = w.
Proof.
  intros <-. rewrite firstn_app, Nat.sub_diag, firstn_all. cbn.
  apply app_nil_r.
Qed.

(** [strncpy(buf, src, n); buf[n] = '\0';] leaves in [buf] the string
    [src] cut after [n] characters, whatever [buf] held. *)
Lemma c_str_bounded_copy (buf src : list byte) (n : nat) :
  c_str (store (strncpy buf src n) n NUL) = firstn n (c_str src).
Proof.
  unfold store, strncpy.
  rewrite firstn_exact by apply strncpy_written_length.
  rewrite c_str_before_NUL. apply c_str_strncpy_written.
Qed.

Lemma bounded_copy_length (buf src : list byte) (n : nat) :
  (n < List.length buf)%nat ->
  List.length (store (strncpy buf src n) n NUL) = List.length buf.
Proof.
  intros H. unfold store, strncpy.
  rewrite firstn_exact by apply strncpy_written_length.
  rewrite length_app. cbn [List.length].
  rewrite strncpy_written_length, length_skipn, length_app, length_skipn,
    strncpy_written_length.
  lia.
Qed.

End CStringFacts.

(* ================================================================= *)
(** ** create_account and account_counter *)

Section CreateAccount.
Import CString ExampleC.
Local Open Scope Z_scope.

Lemma wrap_in_range (z : Z) : CInt.in_range (CInt.wrap z).
Proof.
  unfold CInt.in_range, CInt.wrap, CInt.INT_MIN, CInt.INT_MAX.
  pose proof (Z.mod_pos_bound (z + 2147483648) 4294967296 ltac:(lia)). lia.
Qed.

Lemma wrap_small (z : Z) : CInt.in_range z -> CInt.wrap z = z.
Proof.
  unfold CInt.in_range, CInt.wrap, CInt.INT_MIN, CInt.INT_MAX. intros H.
  rewrite Z.mod_small by lia. lia.
Qed.

Lemma wrap_add_wrap (a b : Z) : CInt.wrap (CInt.wrap a + b) = CInt.wrap (a + b).
Proof.
  unfold CInt.wrap. f_equal.
  replace ((a + 2147483648) mod 4294967296 - 2147483648 + b + 2147483648)
    with ((a + 2147483648) mod 4294967296 + b) by lia.
  rewrite Z.add_mod_idemp_l by lia. f_equal. lia.
Qed.

Lemma incr_below_max (k : Z) :
  CInt.INT_MIN <= k < CInt.INT_MAX -> CInt.incr k = k + 1.
Proof.
  intros H. apply wrap_small.
  unfold CInt.in_range, CInt.INT_MIN, CInt.INT_MAX in *. lia.
Qed.

(** What a call of [create_account] does, by the answer of [malloc]. *)
Lemma create_account_NULL (id0 : Z) (name0 : list byte) (k : Z) :
  create_account id0 name0 None k = (None, k).
Proof. reflexivity. Qed.

Lemma create_account_success
    (id0 : Z) (name0 : list byte) (raw : Account) (k : Z) :
  exists acc,
    create_account id0 name0 (Some raw) k = (Some acc, CInt.incr k) /\
    id acc = id0 /\
    c_str (name acc) = firstn 49 (c_str name0) /\
    balance acc = S754_zero false.
Proof.
  eexists. split; [reflexivity |]. cbn [id name balance].
  split; [reflexivity | split; [| reflexivity]].
  apply (c_str_bounded_copy (name raw) name0 49).
Qed.

(** The array [name] keeps its 50 bytes. *)
Lemma create_account_name_size
    (id0 : Z) (name0 : list byte) (raw acc : Account) (k k' : Z) :
  create_account id0 name0 (Some raw) k = (Some acc, k') ->
  List.length (name raw) = sizeof_name ->
  List.length (name acc) = sizeof_name.
Proof.
  cbn [create_account id name balance]. intros [= <- _] H. cbn [name].
  rewrite bounded_copy_length; [exact H |].
  rewrite H. unfold sizeof_name. lia.
Qed.

(** One call of a sequence, by the answer of [malloc]. *)
Lemma run_cons_success
    (i : Z) (n : list byte) (raw : Account) (rest : list call) (k : Z) :
  exists acc,
    create_account i n (Some raw) k = (Some acc, CInt.incr k) /\
    id acc = i /\
    run (mkCall i n (Some raw) :: rest) k =
    (Some acc :: fst (run rest (CInt.incr k)),
     snd (run rest (CInt.incr k))).
Proof.
  destruct (create_account_success i n raw k) as (acc & E & Hid & _).
  exists acc. repeat split; try assumption.
  cbn [run call_id call_name call_malloc]. rewrite E.
  destruct (run rest (CInt.incr k)); reflexivity.
Qed.

Lemma run_cons_NULL (i : Z) (n : list byte) (rest : list call) (k : Z) :
  run (mkCall i n None :: rest) k =
  (None :: fst (run rest k), snd (run rest k)).
Proof.
  cbn [run call_id call_name call_malloc]. rewrite create_account_NULL.
  destruct (run rest k); reflexivity.
Qed.

(** The number of accounts created is the number of calls in which
    [malloc] succeeded. *)
Lemma created_length (calls : list call) (k : Z) :
  List.length (created (fst (run calls k))) =
  List.length (filter succeeds calls).
Proof.
  revert k. induction calls as [| [i n [raw |]] rest IH]; intros k.
  - reflexivity.
  - destruct (run_cons_success i n raw rest k) as (acc & _ & _ & ->).
    cbn. now rewrite IH.
  - rewrite run_cons_NULL. cbn. apply IH.
Qed.

Lemma created_ids (calls : list call) (k : Z) :
  map id (created (fst (run calls k))) =
  map call_id (filter succeeds calls).
Proof.
  revert k. induction calls as [| [i n [raw |]] rest IH]; intros k.
  - reflexivity.
  - destruct (run_cons_success i n raw rest k) as (acc & _ & Hid & ->).
    cbn. now rewrite IH, Hid.
  - rewrite run_cons_NULL. cbn. apply IH.
Qed.

(** The counter after a sequence of calls: one increment of [int] for
    each call in which [malloc] succeeded. *)
Lemma run_counter (calls : list call) (k : Z) :
  CInt.in_range k ->
  snd (run calls k) =
  CInt.wrap (k + Z.of_nat (List.length (filter succeeds calls))).
Proof.
  revert k. induction calls as [| [i n [raw |]] rest IH]; intros k Hk.
  - cbn. rewrite Z.add_0_r. symmetry. now apply wrap_small.
  - destruct (run_cons_success i n raw rest k) as (acc & _ & _ & ->).
    cbn [snd]. rewrite IH by apply wrap_in_range.
    unfold CInt.incr. rewrite wrap_add_wrap. f_equal.
    cbn [filter succeeds call_malloc List.length]. lia.
  - rewrite run_cons_NULL. cbn [snd]. now apply IH.
Qed.

Lemma filter_succeeds_repeat (c : call) (n : nat) :
  succeeds c = true -> filter succeeds (repeat c n) = repeat c n.
Proof.
  intros H. induction n as [| n IH]; [reflexivity |].
  cbn [repeat filter]. now rewrite H, IH.
Qed.

Lemma StronglySorted_lt_NoDup (l : list Z) :
  StronglySorted Z.lt l -> NoDup l.
Proof.
  induction 1 as [| x l Hs IH Hx]; constructor; [| exact IH].
  intros Hin. rewrite Forall_forall in Hx. specialize (Hx x Hin). lia.
Qed.

End CreateAccount.

(* ================================================================= *)
(** ** Identifiers, the counter and names *)

Section Creation.
Import CString ExampleC Fixtures.
Local Open Scope Z_scope.

(** C6, amended.  The [id] of a created account is the [id] argument of
    the call that created it, in C and in C++; [account_counter] takes no
    part in it (the accounts returned do not depend on its value).  So the
    identifiers of the accounts created by a sequence of calls are, in
    creation order, the identifiers the caller supplied to the calls that
    succeeded: they are strictly increasing, and then pairwise distinct,
    when the caller supplies them so. *)
Theorem created_ids_are_the_supplied_ids (calls : list call) (k : Z) :
  map id (created (fst (run calls k))) =
    map call_id (filter succeeds calls) /\
  (forall k', map id (created (fst (run calls k'))) =
              map id (created (fst (run calls k)))) /\
  (StronglySorted Z.lt (map call_id (filter succeeds calls)) ->
   StronglySorted Z.lt (map id (created (fst (run calls k)))) /\
   NoDup (map id (created (fst (run calls k))))) /\
  (forall (i : Z) (n : string) (x : float),
     banking.Account.getId (banking.Account.ctor i n) = i /\
     banking.getId (banking.Savings (banking.SavingsAccount.ctor i n x)) = i /\
     banking.getId (banking.Checking (banking.CheckingAccount.ctor i n x))
     = i).
Proof.
  split; [apply created_ids |].
  split; [intros k'; now rewrite !created_ids |].
  split; [| intros; repeat split; reflexivity].
  rewrite created_ids. intros H.
  split; [exact H | now apply StronglySorted_lt_NoDup].
Qed.

(** C6: the two accounts of [example.cpp], created through
    [create_account] with the identifiers 1 and 2. *)
Lemma created_ids_witness :
  let calls :=
    [successful_call 1 "Alice Smith"; successful_call 2 "Bob Jones"] in
  StronglySorted Z.lt (map call_id (filter succeeds calls)) /\
  map id (created (fst (run calls account_counter_init))) = [1; 2] /\
  NoDup (map id (created (fst (run calls account_counter_init)))).
Proof.
  cbv zeta.
  assert (S : StronglySorted Z.lt
                (map call_id
                   (filter succeeds
                      [successful_call 1 "Alice Smith";
                       successful_call 2 "Bob Jones"]))).
  { cbn. repeat constructor. }
  destruct
    (created_ids_are_the_supplied_ids
       [successful_call 1 "Alice Smith"; successful_call 2 "Bob Jones"]
       account_counter_init) as (H1 & _ & H3 & _).
  split; [exact S |]. split; [rewrite H1; reflexivity |].
  exact (proj2 (H3 S)).
Defined.

(** C6 fails as stated.  Two calls [create_account(1, ...)], both
    successful, from the initial counter: the two accounts have the same
    [id] 1, neither distinct nor increasing, while the counter went from 0
    to 2. *)
Lemma same_id_created_twice :
  let calls := [successful_call 1 "John Doe"; successful_call 1 "Jane Roe"] in
  let r := run calls account_counter_init in
  map id (created (fst r)) = [1; 1] /\
  snd r = 2 /\
  ~ NoDup (map id (created (fst r))) /\
  ~ StronglySorted Z.lt (map id (created (fst r))).
Proof.
  cbv zeta.
  split; [reflexivity |]. split; [reflexivity |].
  change (map id _) with [1; 1].
  split.
  - intros H. inversion H as [| x l Hin _]. apply Hin. now left.
  - intros H. inversion H as [| x l _ Hall]. inversion Hall. lia.
Qed.

(** C7, amended.  After a sequence of calls of [create_account] from the
    start of the process in which [N] accounts were created, with
    [N <= INT_MAX = 2147483647], [account_counter] equals [N].  A call
    that creates an account advances the counter by exactly one as long
    as the counter is below [INT_MAX]; a call in which [malloc] fails
    leaves it as it was. *)
Theorem counter_counts_creations (calls : list call) :
  let N :=
    Z.of_nat
      (List.length (created (fst (run calls account_counter_init)))) in
  N <= CInt.INT_MAX ->
  snd (run calls account_counter_init) = N /\
  (Forall (fun c => succeeds c = true) calls ->
   N = Z.of_nat (List.length calls)) /\
  (forall (i : Z) (n : list byte) (raw : Account) (k : Z),
     CInt.INT_MIN <= k < CInt.INT_MAX ->
     snd (create_account i n (Some raw) k) = k + 1) /\
  (forall (i : Z) (n : list byte) (k : Z),
     snd (create_account i n None k) = k).
Proof.
  cbv zeta. rewrite created_length. intros HN.
  split; [| split; [| split]].
  - rewrite run_counter by (unfold account_counter_init, CInt.in_range,
      CInt.INT_MIN, CInt.INT_MAX; lia).
    unfold account_counter_init. apply wrap_small.
    unfold CInt.in_range, CInt.INT_MIN, CInt.INT_MAX in *. lia.
  - intros Hall. f_equal. f_equal.
    clear HN. induction Hall as [| c rest Hc _ IH]; [reflexivity |].
    cbn [filter]. rewrite Hc. cbn [List.length]. now rewrite IH.
  - intros i n raw k Hk. cbn [create_account snd].
    now apply incr_below_max.
  - reflexivity.
Qed.

(** C7: scenario 5 of the ledger.  Two accounts created in sequence: the
    counter is 2. *)
Lemma counter_counts_creations_witness :
  let calls :=
    [successful_call 1 "Alice Smith"; successful_call 2 "Bob Jones"] in
  Z.of_nat (List.length (created (fst (run calls account_counter_init))))
    <= CInt.INT_MAX /\
  snd (run calls account_counter_init) = 2.
Proof.
  cbv zeta.
  assert (H : Z.of_nat
                (List.length
                   (created
                      (fst (run [successful_call 1 "Alice Smith";
                                 successful_call 2 "Bob Jones"]
                              account_counter_init))))
              <= CInt.INT_MAX) by (vm_compute; discriminate).
  split; [exact H |].
  exact (proj1 (counter_counts_creations
                  [successful_call 1 "Alice Smith";
                   successful_call 2 "Bob Jones"] H)).
Defined.

(** C7 fails as stated.  After 2147483648 successful creations the
    counter, an [int], does not hold 2147483648: the increment that
    follows [INT_MAX] wraps around to -2147483648. *)
Lemma counter_after_2147483648_creations :
  let calls := repeat (successful_call 1 "John Doe") (Z.to_nat 2147483648) in
  Forall (fun c => succeeds c = true) calls /\
  Z.of_nat (List.length calls) = 2147483648 /\
  Z.of_nat (List.length (created (fst (run calls account_counter_init))))
    = 2147483648 /\
  snd (run calls account_counter_init) = -2147483648 /\
  snd (run calls account_counter_init) <> 2147483648.
Proof.
  cbv zeta.
  set (n := Z.to_nat 2147483648).
  assert (Hn : Z.of_nat n = 2147483648) by (unfold n; apply Z2Nat.id; lia).
  clearbody n.
  assert (Hc : succeeds (successful_call 1 "John Doe") = true)
    by reflexivity.
  assert (Hrun : snd (run (repeat (successful_call 1 "John Doe") n)
                        account_counter_init) = -2147483648).
  { rewrite run_counter by (unfold account_counter_init, CInt.in_range,
      CInt.INT_MIN, CInt.INT_MAX; lia).
    rewrite (filter_succeeds_repeat _ _ Hc), repeat_length, Hn.
    reflexivity. }
  split; [| split; [| split; [| split]]].
  - apply Forall_forall. intros c Hin.
    apply repeat_spec in Hin. now subst c.
  - now rewrite repeat_length.
  - now rewrite created_length, (filter_succeeds_repeat _ _ Hc),
      repeat_length.
  - exact Hrun.
  - rewrite Hrun. discriminate.
Qed.

(** C8, amended.  An account created by the C [create_account] stores the
    supplied name cut after its first 49 characters, silently: the stored
    string has at most 49 characters, and a name of 49 characters or fewer
    is stored unchanged.  An account constructed by the C++ classes stores
    the supplied name unchanged, whatever its length. *)
Theorem stored_name_spec
    (id0 : Z) (name0 : list byte) (raw : Account) (k : Z) :
  (exists acc,
     fst (create_account id0 name0 (Some raw) k) = Some acc /\
     c_str (name acc) = firstn 49 (c_str name0) /\
     (strlen (name acc) <= 49)%nat /\
     ((strlen name0 <= 49)%nat -> c_str (name acc) = c_str name0)) /\
  (forall (i : Z) (n : string) (x : float),
     banking.Account.getName (banking.Account.ctor i n) = n /\
     banking.getName (banking.Savings (banking.SavingsAccount.ctor i n x))
     = n /\
     banking.getName (banking.Checking (banking.CheckingAccount.ctor i n x))
     = n).
Proof.
  split; [| intros; repeat split; reflexivity].
  destruct (create_account_success id0 name0 raw k) as (acc & E & _ & Hn & _).
  exists acc. rewrite E. split; [reflexivity |].
  split; [exact Hn |]. unfold strlen. rewrite Hn. split.
  - rewrite length_firstn. lia.
  - intros H. now apply firstn_all2.
Qed.

(** C8: a name of 52 characters given to [create_account] is stored as its
    first 49; "John Doe" is stored as it is. *)
Lemma stored_name_spec_witness :
  (exists acc,
     fst (create_account 1 (list_byte_of_string long_name)
            (Some fresh_block) 0) = Some acc /\
     c_str (name acc) = list_byte_of_string long_name_49) /\
  (exists acc,
     fst (create_account 1 (list_byte_of_string "John Doe")
            (Some fresh_block) 0) = Some acc /\
     (strlen (list_byte_of_string "John Doe") <= 49)%nat /\
     c_str (name acc) = list_byte_of_string "John Doe").
Proof.
  split.
  - destruct (stored_name_spec 1 (list_byte_of_string long_name)
                fresh_block 0) as ((acc & E & Hn & _) & _).
    exists acc. split; [exact E |]. rewrite Hn. reflexivity.
  - destruct (stored_name_spec 1 (list_byte_of_string "John Doe")
                fresh_block 0) as ((acc & E & _ & _ & Hs) & _).
    assert (H : (strlen (list_byte_of_string "John Doe") <= 49)%nat)
      by (vm_compute; lia).
    exists acc. split; [exact E |]. split; [exact H |]. exact (Hs H).
Defined.

(** C8 fails as stated.  [Account::Account] copies the supplied
    [std::string]: a C++ account constructed with a name of 52 characters
    stores all 52, not its first 49. *)
Lemma cpp_name_is_not_truncated :
  let acct := banking.Account.ctor 3 long_name in
  String.length long_name = 52%nat /\
  banking.Account.getName acct = long_name /\
  String.length (banking.Account.getName acct) = 52%nat /\
  substring 0 49 long_name = long_name_49 /\
  banking.Account.getName acct <> substring 0 49 long_name.
Proof.
  cbv zeta. repeat (split; [reflexivity |]).
  intros H. vm_compute in H. discriminate.
Qed.

(** C10.  [create_account] returns [NULL] when [malloc] returns [NULL],
    and [account_counter] is then left as it was.  When [malloc] succeeds
    the account returned has the given [id], the given name cut after 49
    characters (in an array that still has its 50 bytes) and the balance
    [+0.0], whatever the block held, and the counter has been incremented
    once (by one, below [INT_MAX]). *)
Theorem create_account_spec (id0 : Z) (name0 : list byte) (k : Z) :
  create_account id0 name0 None k = (None, k) /\
  (forall raw : Account,
     exists acc,
       create_account id0 name0 (Some raw) k = (Some acc, CInt.incr k) /\
       id acc = id0 /\
       c_str (name acc) = firstn 49 (c_str name0) /\
       balance acc = zero /\
       (List.length (name raw) = sizeof_name ->
        List.length (name acc) = sizeof_name)) /\
  (CInt.INT_MIN <= k < CInt.INT_MAX -> CInt.incr k = k + 1).
Proof.
  split; [reflexivity |]. split; [| apply incr_below_max].
  intros raw.
  destruct (create_account_success id0 name0 raw k)
    as (acc & E & Hid & Hn & Hb).
  exists acc. repeat split; try assumption.
  exact (create_account_name_size _ _ _ _ _ _ E).
Qed.

(** C10: the call of [main] in [example.c], [create_account(1, "John Doe")]
    from the initial counter, when [malloc] succeeds and when it fails. *)
Lemma create_account_spec_witness :
  create_account 1 (list_byte_of_string "John Doe") None 0 = (None, 0) /\
  (exists acc,
     create_account 1 (list_byte_of_string "John Doe") (Some fresh_block) 0
     = (Some acc, 1) /\
     id acc = 1 /\
     c_str (name acc) = list_byte_of_string "John Doe" /\
     balance acc = zero).
Proof.
  destruct (create_account_spec 1 (list_byte_of_string "John Doe") 0)
    as (H1 & H2 & H3).
  split; [exact H1 |].
  destruct (H2 fresh_block) as (acc & E & Hid & Hn & Hb & _).
  exists acc. rewrite E, Hn.
  rewrite H3 by (unfold CInt.INT_MIN, CInt.INT_MAX; lia).
  repeat split; assumption.
Defined.

End Creation.

(* ================================================================= *)
(** ** The scenarios of the ledger *)

Section Scenarios.
Import banking Binary64.
Local Open Scope float_scope.

(** C2: a savings account holding 1000.  Withdrawing 400 leaves 600,
    exactly 400 less; withdrawing 1500, or -5, leaves the account as it
    was. *)
Lemma savings_withdraw_spec_witness :
  let s :=
    SavingsAccount.deposit 1000 (SavingsAccount.ctor 1 "Alice Smith" 0.05) in
  SavingsAccount.getBalance (SavingsAccount.withdraw 400 s) = 600 /\
  SavingsAccount.withdraw 1500 s = s /\
  SavingsAccount.withdraw (-5) s = s /\
  exact_sub (SavingsAccount.getBalance s) 400 = true /\
  exists b q r,
    value (SavingsAccount.getBalance s) = Some b /\ value 400 = Some q /\
    value (SavingsAccount.getBalance (SavingsAccount.withdraw 400 s))
    = Some r /\
    (r == b - q)%Q.
Proof.
  cbv zeta.
  set (s := SavingsAccount.deposit 1000
              (SavingsAccount.ctor 1 "Alice Smith" 0.05)).
  split; [| split; [| split; [| split]]].
  - destruct (savings_withdraw_spec s 400) as (H & _).
    rewrite H by (split; vm_compute; reflexivity).
    vm_compute. reflexivity.
  - destruct (savings_withdraw_spec s 1500) as (_ & H & _).
    apply H. intros [_ E]. vm_compute in E. discriminate.
  - destruct (savings_withdraw_spec s (-5)) as (_ & H & _).
    apply H. intros [E _]. vm_compute in E. discriminate.
  - vm_compute. reflexivity.
  - destruct (savings_withdraw_spec s 400) as (_ & _ & _ & _ & H).
    apply H; [split |]; vm_compute; reflexivity.
Defined.

(** C2 fails as stated.  A savings account holding 1e17, where
    neighbouring doubles are 16 apart: [withdraw(1)] passes the test, the
    difference rounds back to 1e17, and the balance has not decreased at
    all, let alone by exactly 1. *)
Lemma savings_withdraw_not_by_exactly_a :
  let s :=
    SavingsAccount.deposit 1e17 (SavingsAccount.ctor 1 "Alice Smith" 0.05) in
  let B := SavingsAccount.getBalance s in
  let after := SavingsAccount.getBalance (SavingsAccount.withdraw 1 s) in
  B = 1e17 /\ (0 <? 1) = true /\ (1 <=? B) = true /\
  after = B /\
  getBalance (withdraw 1 (Savings s)) = B /\
  exists b q r,
    value B = Some b /\ value 1 = Some q /\ value after = Some r /\
    ~ (r == b - q)%Q.
Proof.
  cbv zeta. repeat (split; [vm_compute; reflexivity |]).
  do 3 eexists.
  split; [vm_compute; reflexivity |].
  split; [vm_compute; reflexivity |].
  split; [vm_compute; reflexivity |].
  vm_compute. discriminate.
Qed.

(** C3: scenario 1 of the ledger.  A deposit of 1000 on a new savings
    account gives a balance of 1000, exactly 1000 more; deposits of 0, of
    -5 and of a NaN change nothing. *)
Lemma deposit_spec_witness :
  let acct := Savings (SavingsAccount.ctor 1 "Alice Smith" 0.05) in
  getBalance (deposit 1000 acct) = 1000 /\
  deposit 0 acct = acct /\
  deposit (-5) acct = acct /\
  deposit nan acct = acct /\
  exact_add (getBalance acct) 1000 = true /\
  exists b q r,
    value (getBalance acct) = Some b /\ value 1000 = Some q /\
    value (getBalance (deposit 1000 acct)) = Some r /\ (r == b + q)%Q.
Proof.
  cbv zeta.
  set (acct := Savings (SavingsAccount.ctor 1 "Alice Smith" 0.05)).
  split; [| split; [| split; [| split; [| split]]]].
  - destruct (deposit_spec acct 1000) as (H & _).
    rewrite H by (vm_compute; reflexivity). vm_compute. reflexivity.
  - destruct (deposit_spec acct 0) as (_ & H & _).
    apply H. vm_compute. reflexivity.
  - destruct (deposit_spec acct (-5)) as (_ & H & _).
    apply H. vm_compute. reflexivity.
  - destruct (deposit_spec acct nan) as (_ & _ & H & _).
    apply H. vm_compute. reflexivity.
  - vm_compute. reflexivity.
  - destruct (deposit_spec acct 1000) as (_ & _ & _ & H).
    apply H; vm_compute; reflexivity.
Defined.

(** C3 fails as stated.  An account holding 1e16, where neighbouring
    doubles are 2 apart: [deposit(1)] is accepted, the sum rounds back to
    1e16 (a tie, broken towards the even mantissa), and the balance has
    not increased; the same on a checking account. *)
Lemma deposit_not_by_exactly_a :
  let acct :=
    deposit 1e16 (Savings (SavingsAccount.ctor 1 "Alice Smith" 0.05)) in
  let chk :=
    deposit 1e16 (Checking (CheckingAccount.ctor 2 "Bob Jones" 500)) in
  let B := getBalance acct in
  let after := getBalance (deposit 1 acct) in
  B = 1e16 /\ (0 <? 1) = true /\
  after = B /\
  getBalance (deposit 1 chk) = getBalance chk /\
  exists b q r,
    value B = Some b /\ value 1 = Some q /\ value after = Some r /\
    ~ (r == b + q)%Q.
Proof.
  cbv zeta. repeat (split; [vm_compute; reflexivity |]).
  do 3 eexists.
  split; [vm_compute; reflexivity |].
  split; [vm_compute; reflexivity |].
  split; [vm_compute; reflexivity |].
  vm_compute. discriminate.
Qed.

(** Scenario 1: Savings(1, "Alice", 0.05); deposit(1000) gives 1000,
    applyInterest() gives 1050. *)
Example scenario_1 :
  let s := SavingsAccount.deposit 1000 (SavingsAccount.ctor 1 "Alice" 0.05) in
  SavingsAccount.getBalance s = 1000 /\
  SavingsAccount.getBalance (SavingsAccount.applyInterest s) = 1050.
Proof. split; reflexivity. Qed.

(** Scenario 2: Checking(2, "Bob", 500); deposit(500) gives 500,
    withdraw(800) gives -300. *)
Example scenario_2 :
  let c := CheckingAccount.deposit 500 (CheckingAccount.ctor 2 "Bob" 500) in
  CheckingAccount.getBalance c = 500 /\
  CheckingAccount.getBalance (CheckingAccount.withdraw 800 c) = -300.
Proof. split; reflexivity. Qed.

(** Scenario 3: a checking account with balance 0 and limit 500;
    withdraw(600) changes nothing. *)
Example scenario_3 :
  let c := CheckingAccount.ctor 2 "Bob" 500 in
  CheckingAccount.withdraw 600 c = c.
Proof. reflexivity. Qed.

(** Scenario 4: withdraw(-5) changes nothing, on either kind of
    account. *)
Example scenario_4 :
  let s :=
    Savings
      (SavingsAccount.deposit 1000 (SavingsAccount.ctor 1 "Alice" 0.05)) in
  let c :=
    Checking
      (CheckingAccount.deposit 500 (CheckingAccount.ctor 2 "Bob" 500)) in
  withdraw (-5) s = s /\ withdraw (-5) c = c.
Proof. split; reflexivity. Qed.

(** Scenario 5: two accounts created in sequence; the counter is 2. *)
Example scenario_5 :
  snd (ExampleC.run
         [Fixtures.successful_call 1 "Alice"; Fixtures.successful_call 2 "Bob"]
         ExampleC.account_counter_init) = 2%Z.
Proof. reflexivity. Qed.

(** The run of [main] in [example.cpp]: what [print] reads afterwards. *)
Example main_cpp :
  let savings :=
    SavingsAccount.applyInterest
      (SavingsAccount.deposit 1000
         (SavingsAccount.ctor 1 "Alice Smith" 0.05)) in
  let checking :=
    CheckingAccount.deposit 500 (CheckingAccount.ctor 2 "Bob Jones" 500) in
  (getId (Savings savings), getName (Savings savings),
   getBalance (Savings savings), getAccountType (Savings savings))
  = (1%Z, "Alice Smith"%string, 1050, "Savings"%string) /\
  (getId (Checking checking), getName (Checking checking),
   getBalance (Checking checking), getAccountType (Checking checking))
  = (2%Z, "Bob Jones"%string, 500, "Checking"%string).
Proof. split; reflexivity. Qed.

End Scenarios.

(* ================================================================= *)
(** ** Rounding to nearest, from below and from both sides *)


Section RoundingDown.
Import Binary64.
Local Open Scope Q_scope.

(** Cutting the low bits of [M * 2^e] down to the exponent of its format
    stays above every binary64 number that is at most [M * 2^e]. *)
Lemma floor_above (M e : Z) (mz : positive) (ez : Z) :
  (0 < M)%Z ->
  canonical_mantissa prec emax mz ez = true ->
  scaled (Zpos mz) ez <= scaled M e ->
  let n := Z.max 0 (fexp prec emax (Zdigits2 M + e) - e) in
  scaled (Zpos mz) ez <= scaled (M / 2 ^ n) (e + n).
Proof.
  intros HM Hcan Hle n.
  apply Z.eqb_eq in Hcan.
  change (Zpos (digits2_pos mz)) with (Zdigits2 (Zpos mz)) in Hcan.
  pose proof (magnitude_le_digits _ _ _ _ (Pos2Z.is_pos mz) HM Hle) as Hmag.
  set (e0 := fexp prec emax (Zdigits2 M + e)) in *.
  assert (He0 : (ez <= e0)%Z) by (rewrite <- Hcan; now apply fexp_le).
  destruct (Z_le_gt_dec e0 e) as [Hn | Hn].
  - unfold n. rewrite Z.max_l by lia. rewrite Z.pow_0_r, Z.div_1_r, Z.add_0_r.
    exact Hle.
  - assert (En : n = (e0 - e)%Z) by (unfold n; lia).
    assert (Hn0 : (0 < n)%Z) by lia.
    assert (Hp : (0 < 2 ^ n)%Z) by (apply Z.pow_pos_nonneg; lia).
    replace (e + n)%Z with e0 by lia.
    destruct (Z.eq_dec ez e0) as [E | E].
    + subst ez. apply scaled_le_iff.
      apply Z.div_le_lower_bound; [exact Hp |].
      apply (scaled_le_iff _ _ e). rewrite Z.mul_comm, scaled_shift by lia.
      now replace (e + n)%Z with e0 by lia.
    + assert (Hlt : (ez < e0)%Z) by lia.
      destruct (Zdigits2_bounds M HM) as [HMlo _].
      destruct (Zdigits2_bounds (Zpos mz) (Pos2Z.is_pos mz)) as [_ Hzhi].
      pose proof (Zdigits2_pos (Zpos mz) (Pos2Z.is_pos mz)) as Hdz.
      assert (Hfe : e0 = (Zdigits2 M + e - prec)%Z).
      { unfold e0, fexp in *. unfold emin, emax, prec in *. lia. }
      assert (Hmz : (Zdigits2 (Zpos mz) + ez < Zdigits2 M + e)%Z).
      { unfold e0, fexp in *. unfold emin, emax, prec in *. lia. }
      assert (Hdn : (Zdigits2 M - 1 = 52 + n)%Z) by (unfold prec in *; lia).
      assert (H52 : (2 ^ 52 <= M / 2 ^ n)%Z).
      { apply Z.div_le_lower_bound; [exact Hp |].
        rewrite Z.mul_comm, <- Z.pow_add_r by lia. now rewrite <- Hdn. }
      assert (A : scaled (Zpos mz) ez < pow2 (Zdigits2 (Zpos mz) + ez)).
      { rewrite Z.add_comm, pow2_add, (pow2_Z (Zdigits2 (Zpos mz))) by lia.
        unfold scaled. rewrite (Qmult_comm (pow2 ez)).
        apply Qmult_lt_compat_r; [apply pow2_pos | now rewrite <- Zlt_Qlt]. }
      assert (B : pow2 (Zdigits2 (Zpos mz) + ez) <= pow2 (52 + e0))
        by (apply pow2_le; unfold prec in *; lia).
      assert (C : pow2 (52 + e0) <= scaled (M / 2 ^ n) e0).
      { rewrite Z.add_comm, pow2_add, (pow2_Z 52) by lia.
        unfold scaled. rewrite (Qmult_comm (pow2 e0)).
        apply Qmult_le_compat_r;
          [now rewrite <- Zle_Qle | apply Qlt_le_weak, pow2_pos]. }
      lra.
Qed.

Lemma scaled_zero (e : Z) : scaled 0 e == 0.
Proof. unfold scaled. change (inject_Z 0) with 0. ring. Qed.

Lemma scaled_pos_inv (m e : Z) : 0 < scaled m e -> (0 < m)%Z.
Proof.
  intros H. destruct (Z_lt_le_dec 0 m) as [Hm | Hm]; [exact Hm | exfalso].
  assert (H0 : scaled m e <= scaled 0 e) by (apply scaled_le_iff; exact Hm).
  rewrite scaled_zero in H0. lra.
Qed.

(** Rounding the positive number [M * 2^e] does not go under a binary64
    number that is at most as large: the result is a finite number of at
    least that magnitude, or the infinity. *)
Lemma binary_round_aux_above
    (sx : bool) (M : positive) (e : Z) (mz : positive) (ez : Z) :
  canonical_mantissa prec emax mz ez = true ->
  scaled (Zpos mz) ez <= scaled (Zpos M) e ->
  binary_round_aux prec emax sx (Zpos M) e loc_Exact = S754_infinity sx \/
  exists mr er,
    binary_round_aux prec emax sx (Zpos M) e loc_Exact
    = S754_finite sx mr er /\
    scaled (Zpos mz) ez <= scaled (Zpos mr) er.
Proof.
  intros Hcan Hle.
  pose proof (floor_above _ _ _ _ (Pos2Z.is_pos M) Hcan Hle) as H1.
  cbv zeta in H1.
  unfold binary_round_aux, shr_fexp.
  set (e0 := fexp prec emax (Zdigits2 (Zpos M) + e)) in *.
  pose proof (shr_spec_any (Zpos M) e (e0 - e) (Pos2Z.is_nonneg M)) as S1.
  destruct (shr (shr_record_of_loc (Zpos M) loc_Exact) e (e0 - e))
    as [mrs1 e1].
  destruct S1 as [-> [Hm1 _]].
  set (n := Z.max 0 (e0 - e)) in *.
  set (m2 := round_nearest_even (shr_m mrs1) (loc_of_shr_record mrs1)).
  pose proof (round_nearest_even_bounds (shr_m mrs1) (loc_of_shr_record mrs1))
    as Hr. fold m2 in Hr. rewrite Hm1 in Hr.
  assert (H2 : scaled (Zpos mz) ez <= scaled m2 (e + n)).
  { apply Qle_trans with (1 := H1). apply scaled_le_iff. lia. }
  assert (Hm2 : (0 < m2)%Z).
  { apply (scaled_pos_inv m2 (e + n)).
    pose proof (scaled_pos mz ez). lra. }
  pose proof (floor_above _ _ _ _ Hm2 Hcan H2) as H3. cbv zeta in H3.
  pose proof (shr_spec_any m2 (e + n)
                (fexp prec emax (Zdigits2 m2 + (e + n)) - (e + n))
                (Z.lt_le_incl _ _ Hm2)) as S2.
  destruct (shr (shr_record_of_loc m2 loc_Exact) (e + n)
              (fexp prec emax (Zdigits2 m2 + (e + n)) - (e + n)))
    as [mrs3 e3].
  destruct S2 as [-> [Hm3 _]]. rewrite <- Hm3 in H3.
  assert (Hm3p : (0 < shr_m mrs3)%Z).
  { apply (scaled_pos_inv _ _ (Qlt_le_trans _ _ _ (scaled_pos mz ez) H3)). }
  destruct (shr_m mrs3) as [| mr | mr] eqn:Emr; try lia.
  destruct (_ <=? _)%Z; [right | now left].
  exists mr. eexists. split; [reflexivity | exact H3].
Qed.

Lemma binary_round_above
    (sx : bool) (m : positive) (e : Z) (mz : positive) (ez : Z) :
  canonical_mantissa prec emax mz ez = true ->
  scaled (Zpos mz) ez <= scaled (Zpos m) e ->
  binary_round prec emax sx m e = S754_infinity sx \/
  exists mr er,
    binary_round prec emax sx m e = S754_finite sx mr er /\
    scaled (Zpos mz) ez <= scaled (Zpos mr) er.
Proof.
  intros Hcan Hle. unfold binary_round.
  pose proof (shl_align_spec m e (fexp prec emax (Zpos (digits2_pos m) + e)))
    as Ha.
  destruct (shl_align m e (fexp prec emax (Zpos (digits2_pos m) + e)))
    as [m' e'].
  destruct Ha as [He' Hm'].
  apply binary_round_aux_above; [exact Hcan |].
  rewrite Hm', scaled_shift by lia.
  now replace (e' + (e - e'))%Z with e by lia.
Qed.

End RoundingDown.

Section RoundingBounds.
Import Binary64 Binary64Bounds.
Local Open Scope Q_scope.

Lemma valid_finite_parts (s : bool) (m : positive) (e : Z) :
  valid_binary (S754_finite s m e) = true ->
  bounded prec emax m e = true /\ canonical_mantissa prec emax m e = true.
Proof.
  cbn. intros H. split; [exact H |].
  apply andb_true_iff in H. tauto.
Qed.

(** Normalizing [M * 2^e] gives a number that is at least any binary64
    number that is at most [M * 2^e]: rounding does not cross a number of
    the format. *)
Lemma binary_normalize_at_least (M e : Z) (zb : spec_float) (qz : Q) :
  valid_binary zb = true -> SF2Q zb = Some qz ->
  qz <= scaled M e ->
  SF_at_least qz (binary_normalize prec emax M e false).
Proof.
  intros Hv Hz Hle. unfold SF_at_least.
  destruct M as [| m | m]; cbn [binary_normalize].
  - cbn. now rewrite scaled_zero in Hle.
  - pose proof (binary_round_sign false m e) as Hs.
    pose proof (scaled_pos m e) as Hpos.
    destruct zb as [sz | sz | | [] mz ez]; cbn in Hz; try discriminate;
      injection Hz as <-.
    + destruct (binary_round prec emax false m e) as [s | s | | s mr er];
        cbn [SF2Q]; try subst s; try lra; try reflexivity;
        try contradiction.
      pose proof (magnitude_pos mr er). lra.
    + pose proof (magnitude_pos mz ez).
      destruct (binary_round prec emax false m e) as [s | s | | s mr er];
        cbn [SF2Q]; try subst s; try lra; try reflexivity;
        try contradiction.
      pose proof (magnitude_pos mr er). lra.
    + destruct (valid_finite_parts _ _ _ Hv) as [_ Hcan].
      destruct (binary_round_above false m e mz ez Hcan Hle)
        as [-> | (mr & er & -> & Hr)]; cbn [SF2Q]; [reflexivity |].
      exact Hr.
  - assert (Hm : qz <= - scaled (Zpos m) e).
    { change (Zneg m) with (Z.opp (Zpos m)) in Hle.
      now rewrite scaled_opp in Hle. }
    pose proof (scaled_pos m e) as Hpos.
    destruct zb as [sz | sz | | [] mz ez]; cbn in Hz; try discriminate;
      injection Hz as <-.
    + lra.
    + destruct (valid_finite_parts _ _ _ Hv) as [Hb _].
      assert (Hle' : scaled (Zpos m) e <= scaled (Zpos mz) ez)
        by (change (magnitude mz ez) with (scaled (Zpos mz) ez) in Hm; lra).
      destruct (binary_round_below true m e mz ez Hb Hle')
        as [-> | (mr & er & -> & Hr)]; cbn [SF2Q].
      * pose proof (magnitude_pos mz ez). lra.
      * change (magnitude mr er) with (scaled (Zpos mr) er).
        change (magnitude mz ez) with (scaled (Zpos mz) ez). lra.
    + pose proof (magnitude_pos mz ez). lra.
Qed.

Lemma binary_normalize_at_most (M e : Z) (zb : spec_float) (qz : Q) :
  valid_binary zb = true -> SF2Q zb = Some qz ->
  scaled M e <= qz ->
  SF_at_most qz (binary_normalize prec emax M e false).
Proof.
  intros Hv Hz Hle. unfold SF_at_most.
  destruct M as [| m | m]; cbn [binary_normalize].
  - cbn. now rewrite scaled_zero in Hle.
  - pose proof (scaled_pos m e) as Hpos.
    destruct zb as [sz | sz | | [] mz ez]; cbn in Hz; try discriminate;
      injection Hz as <-.
    + lra.
    + pose proof (magnitude_pos mz ez). lra.
    + destruct (valid_finite_parts _ _ _ Hv) as [Hb _].
      destruct (binary_round_below false m e mz ez Hb Hle)
        as [-> | (mr & er & -> & Hr)]; cbn [SF2Q].
      * pose proof (magnitude_pos mz ez). lra.
      * exact Hr.
  - assert (Hm : - scaled (Zpos m) e <= qz).
    { change (Zneg m) with (Z.opp (Zpos m)) in Hle.
      now rewrite scaled_opp in Hle. }
    pose proof (binary_round_sign true m e) as Hs.
    pose proof (scaled_pos m e) as Hpos.
    destruct zb as [sz | sz | | [] mz ez]; cbn in Hz; try discriminate;
      injection Hz as <-.
    + destruct (binary_round prec emax true m e) as [s | s | | s mr er];
        cbn [SF2Q]; try subst s; try lra; try reflexivity;
        try contradiction.
      pose proof (magnitude_pos mr er). lra.
    + destruct (valid_finite_parts _ _ _ Hv) as [_ Hcan].
      assert (Hle' : scaled (Zpos mz) ez <= scaled (Zpos m) e)
        by (change (magnitude mz ez) with (scaled (Zpos mz) ez) in Hm; lra).
      destruct (binary_round_above true m e mz ez Hcan Hle')
        as [-> | (mr & er & -> & Hr)]; cbn [SF2Q]; [reflexivity |].
      change (magnitude mr er) with (scaled (Zpos mr) er).
      change (magnitude mz ez) with (scaled (Zpos mz) ez). lra.
    + pose proof (magnitude_pos mz ez).
      destruct (binary_round prec emax true m e) as [s | s | | s mr er];
        cbn [SF2Q]; try subst s; try lra; try reflexivity;
        try contradiction.
      pose proof (magnitude_pos mr er). lra.
Qed.

(** The exact sum and difference of two finite numbers, as the numbers
    that [SFadd] and [SFsub] normalize. *)
Lemma aligned_sum (sx : bool) (mx : positive) (ex : Z)
    (sy : bool) (my : positive) (ey : Z) (qx qy : Q) :
  SF2Q (S754_finite sx mx ex) = Some qx ->
  SF2Q (S754_finite sy my ey) = Some qy ->
  let ez := Z.min ex ey in
  scaled (cond_Zopp sx (Zpos (fst (shl_align mx ex ez)))
          + cond_Zopp sy (Zpos (fst (shl_align my ey ez)))) ez == qx + qy /\
  scaled (cond_Zopp sx (Zpos (fst (shl_align mx ex ez)))
          - cond_Zopp sy (Zpos (fst (shl_align my ey ez)))) ez == qx - qy.
Proof.
  intros Hx Hy ez.
  destruct (SF2Q_finite sx mx ex) as (qx' & Hx' & Ex).
  destruct (SF2Q_finite sy my ey) as (qy' & Hy' & Ey).
  rewrite Hx in Hx'. injection Hx' as <-.
  rewrite Hy in Hy'. injection Hy' as <-.
  unfold Z.sub.
  rewrite !scaled_add, scaled_opp, !aligned_value by (unfold ez; lia).
  split; lra.
Qed.

Lemma SFadd_at_least (x y zb : spec_float) (qx qy qz : Q) :
  valid_binary zb = true -> SF2Q zb = Some qz ->
  SF2Q x = Some qx -> SF2Q y = Some qy -> qz <= qx + qy ->
  SF_at_least qz (SFadd prec emax x y).
Proof.
  intros Hv Hz Hx Hy Hle.
  destruct x as [sx | sx | | sx mx ex]; try discriminate;
    destruct y as [sy | sy | | sy my ey]; try discriminate.
  - cbn in Hx, Hy. injection Hx as <-. injection Hy as <-.
    destruct sx, sy; cbn; unfold SF_at_least; cbn; lra.
  - cbn in Hx. injection Hx as <-.
    unfold SFadd, SF_at_least. rewrite Hy. lra.
  - cbn in Hy. injection Hy as <-.
    unfold SFadd, SF_at_least. rewrite Hx. lra.
  - destruct (aligned_sum _ _ _ _ _ _ _ _ Hx Hy) as [E _].
    cbn [SFadd]. cbv zeta.
    apply (binary_normalize_at_least _ _ zb qz Hv Hz). now rewrite E.
Qed.

Lemma SFadd_at_most (x y zb : spec_float) (qx qy qz : Q) :
  valid_binary zb = true -> SF2Q zb = Some qz ->
  SF2Q x = Some qx -> SF2Q y = Some qy -> qx + qy <= qz ->
  SF_at_most qz (SFadd prec emax x y).
Proof.
  intros Hv Hz Hx Hy Hle.
  destruct x as [sx | sx | | sx mx ex]; try discriminate;
    destruct y as [sy | sy | | sy my ey]; try discriminate.
  - cbn in Hx, Hy. injection Hx as <-. injection Hy as <-.
    destruct sx, sy; cbn; unfold SF_at_most; cbn; lra.
  - cbn in Hx. injection Hx as <-.
    unfold SFadd, SF_at_most. rewrite Hy. lra.
  - cbn in Hy. injection Hy as <-.
    unfold SFadd, SF_at_most. rewrite Hx. lra.
  - destruct (aligned_sum _ _ _ _ _ _ _ _ Hx Hy) as [E _].
    cbn [SFadd]. cbv zeta.
    apply (binary_normalize_at_most _ _ zb qz Hv Hz). now rewrite E.
Qed.

Lemma SF2Q_negated (s : bool) (m : positive) (e : Z) (q : Q) :
  SF2Q (S754_finite s m e) = Some q ->
  exists q', SF2Q (S754_finite (negb s) m e) = Some q' /\ q' == - q.
Proof.
  cbn. intros [= <-]. eexists. split; [reflexivity |].
  destruct s; cbn; lra.
Qed.

Lemma SFsub_at_most (x y zb : spec_float) (qx qy qz : Q) :
  valid_binary zb = true -> SF2Q zb = Some qz ->
  SF2Q x = Some qx -> SF2Q y = Some qy -> qx - qy <= qz ->
  SF_at_most qz (SFsub prec emax x y).
Proof.
  intros Hv Hz Hx Hy Hle.
  destruct x as [sx | sx | | sx mx ex]; try discriminate;
    destruct y as [sy | sy | | sy my ey]; try discriminate.
  - cbn in Hx, Hy. injection Hx as <-. injection Hy as <-.
    destruct sx, sy; cbn; unfold SF_at_most; cbn; lra.
  - cbn in Hx. injection Hx as <-.
    destruct (SF2Q_negated _ _ _ _ Hy) as (qn & Hn & En).
    unfold SFsub, SF_at_most. rewrite Hn. lra.
  - cbn in Hy. injection Hy as <-.
    unfold SFsub, SF_at_most. rewrite Hx. lra.
  - destruct (aligned_sum _ _ _ _ _ _ _ _ Hx Hy) as [_ E].
    cbn [SFsub]. cbv zeta.
    apply (binary_normalize_at_most _ _ zb qz Hv Hz). now rewrite E.
Qed.

Lemma SFsub_at_least (x y zb : spec_float) (qx qy qz : Q) :
  valid_binary zb = true -> SF2Q zb = Some qz ->
  SF2Q x = Some qx -> SF2Q y = Some qy -> qz <= qx - qy ->
  SF_at_least qz (SFsub prec emax x y).
Proof.
  intros Hv Hz Hx Hy Hle.
  destruct x as [sx | sx | | sx mx ex]; try discriminate;
    destruct y as [sy | sy | | sy my ey]; try discriminate.
  - cbn in Hx, Hy. injection Hx as <-. injection Hy as <-.
    destruct sx, sy; cbn; unfold SF_at_least; cbn; lra.
  - cbn in Hx. injection Hx as <-.
    destruct (SF2Q_negated _ _ _ _ Hy) as (qn & Hn & En).
    unfold SFsub, SF_at_least. rewrite Hn. lra.
  - cbn in Hy. injection Hy as <-.
    unfold SFsub, SF_at_least. rewrite Hx. lra.
  - destruct (aligned_sum _ _ _ _ _ _ _ _ Hx Hy) as [_ E].
    cbn [SFsub]. cbv zeta.
    apply (binary_normalize_at_least _ _ zb qz Hv Hz). now rewrite E.
Qed.

End RoundingBounds.

(* ================================================================= *)
(** ** The balance before and after an operation *)


Section Monotone.
Import banking Binary64 Binary64Bounds.
Local Open Scope float_scope.

Lemma at_least_not_less (r z : float) (qz : Q) :
  value z = Some qz -> SF_at_least qz (Prim2SF r) -> (r <? z) = false.
Proof.
  intros Hz Hr. unfold SF_at_least in Hr.
  destruct (SF2Q (Prim2SF r)) as [q |] eqn:Er.
  - destruct (r <? z) eqn:E; [| reflexivity].
    apply (ltb_value _ _ _ _ Er Hz) in E. lra.
  - rewrite ltb_spec, Hr. unfold value in Hz.
    destruct (Prim2SF z) as [s | s | | s m e]; try discriminate; reflexivity.
Qed.

Lemma at_most_not_more (r z : float) (qz : Q) :
  value z = Some qz -> SF_at_most qz (Prim2SF r) -> (z <? r) = false.
Proof.
  intros Hz Hr. unfold SF_at_most in Hr.
  destruct (SF2Q (Prim2SF r)) as [q |] eqn:Er.
  - destruct (z <? r) eqn:E; [| reflexivity].
    apply (ltb_value _ _ _ _ Hz Er) in E. lra.
  - rewrite ltb_spec, Hr. unfold value in Hz.
    destruct (Prim2SF z) as [s | s | | s m e]; try discriminate; reflexivity.
Qed.

(** What is not below zero: a zero, a positive finite number,
    [+infinity] or a NaN. *)
Lemma not_below_zero_cases (p : float) :
  not_below 0 p ->
  (exists q, value p = Some q /\ (0 <= q)%Q) \/
  Prim2SF p = S754_infinity false \/ Prim2SF p = S754_nan.
Proof.
  unfold not_below, SF_not_below, value.
  destruct (Prim2SF p) as [s | [] | | s m e]; cbn; intros H.
  - left. eexists. split; [reflexivity | lra].
  - contradiction.
  - right. now left.
  - right. now right.
  - left. eexists. split; [reflexivity | lra].
Qed.

Lemma positive_not_below_zero (a : float) :
  (0 <? a) = true -> not_below 0 a.
Proof.
  intros H. unfold not_below, SF_not_below.
  destruct (positive_cases a H) as [(q & Hq & Hpos) | E].
  - unfold value in Hq. rewrite Hq. lra.
  - rewrite E. cbn. discriminate.
Qed.

(** Adding what is not below zero does not give less, whatever the
    rounding. *)
Lemma add_not_less (b p : float) :
  not_below 0 p -> (b + p <? b) = false.
Proof.
  intros Hp.
  destruct (value b) as [qb |] eqn:Eb.
  - destruct (not_below_zero_cases p Hp) as [(qp & Eqp & Hqp) | [E | E]].
    + apply (at_least_not_less _ _ qb Eb). rewrite add_spec.
      apply (SFadd_at_least _ _ (Prim2SF b) qb qp qb);
        auto using Prim2SF_valid. lra.
    + rewrite ltb_spec, add_spec, E. unfold SF64add. unfold value in Eb.
      destruct (Prim2SF b) as [s | s | | s m e]; try discriminate;
        reflexivity.
    + rewrite ltb_spec, add_spec, E. unfold SF64add.
      destruct (Prim2SF b) as [s | s | | s m e]; reflexivity.
  - rewrite ltb_spec, add_spec. unfold SF64add, value in *.
    destruct (not_below_zero_cases p Hp) as [(qp & Eqp & Hqp) | [E | E]];
      [unfold value in Eqp | rewrite E | rewrite E];
      destruct (Prim2SF b) as [s | [] | | s m e]; try discriminate;
      try reflexivity;
      destruct (Prim2SF p) as [s' | s' | | s' m' e']; try discriminate;
      reflexivity.
Qed.

(** Subtracting what is not below zero does not give more. *)
Lemma sub_not_more (b p : float) :
  not_below 0 p -> (b <? b - p) = false.
Proof.
  intros Hp.
  destruct (value b) as [qb |] eqn:Eb.
  - destruct (not_below_zero_cases p Hp) as [(qp & Eqp & Hqp) | [E | E]].
    + apply (at_most_not_more _ _ qb Eb). rewrite sub_spec.
      apply (SFsub_at_most _ _ (Prim2SF b) qb qp qb);
        auto using Prim2SF_valid. lra.
    + rewrite ltb_spec, sub_spec, E. unfold SF64sub. unfold value in Eb.
      destruct (Prim2SF b) as [s | s | | s m e]; try discriminate;
        reflexivity.
    + rewrite ltb_spec, sub_spec, E. unfold SF64sub.
      destruct (Prim2SF b) as [s | s | | s m e]; reflexivity.
  - rewrite ltb_spec, sub_spec. unfold SF64sub, value in *.
    destruct (not_below_zero_cases p Hp) as [(qp & Eqp & Hqp) | [E | E]];
      [unfold value in Eqp | rewrite E | rewrite E];
      destruct (Prim2SF b) as [s | [] | | s m e]; try discriminate;
      try reflexivity;
      destruct (Prim2SF p) as [s' | s' | | s' m' e']; try discriminate;
      reflexivity.
Qed.

Lemma SFcompare_refl (x : spec_float) :
  SFcompare x x = Some Eq \/ SFcompare x x = None.
Proof.
  destruct x as [s | [] | | [] m e]; cbn; auto;
    rewrite Z.compare_refl, Pos.compare_cont_refl; auto.
Qed.

Lemma ltb_irrefl (x : float) : (x <? x) = false.
Proof.
  rewrite ltb_spec. unfold SFltb.
  destruct (SFcompare_refl (Prim2SF x)) as [-> | ->]; reflexivity.
Qed.

End Monotone.

Section BalanceOrder.
Import banking Binary64 Binary64Bounds.
Local Open Scope float_scope.

Lemma Account_deposit_never_lowers (a : float) (this : Account.t) :
  (Account.balance_ (Account.deposit a this) <? Account.balance_ this)
  = false.
Proof.
  unfold Account.deposit. destruct (0 <? a) eqn:Hpos; cbn.
  - apply add_not_less, positive_not_below_zero, Hpos.
  - apply ltb_irrefl.
Qed.

Lemma Account_withdraw_never_raises (a : float) (this : Account.t) :
  (Account.balance_ this <? Account.balance_ (Account.withdraw a this))
  = false.
Proof.
  unfold Account.withdraw.
  destruct (0 <? a) eqn:Hpos; cbn [andb]; [| apply ltb_irrefl].
  destruct (a <=? _); cbn; [| apply ltb_irrefl].
  apply sub_not_more, positive_not_below_zero, Hpos.
Qed.

Lemma Checking_withdraw_never_raises (a : float) (c : CheckingAccount.t) :
  (CheckingAccount.getBalance c
   <? CheckingAccount.getBalance (CheckingAccount.withdraw a c)) = false.
Proof.
  unfold CheckingAccount.withdraw, CheckingAccount.getBalance,
    Account.getBalance.
  destruct (0 <? a) eqn:Hpos; cbn [andb]; [| apply ltb_irrefl].
  destruct (a <=? _); cbn; [| apply ltb_irrefl].
  apply sub_not_more, positive_not_below_zero, Hpos.
Qed.

(** X1.  A deposit never lowers the balance, for either kind of account
    and every amount (negative, infinite or NaN included), whatever the
    rounding of the sum: afterwards [new < old] is false. *)
Theorem deposit_never_lowers_balance (acct : account) (a : float) :
  (getBalance (deposit a acct) <? getBalance acct) = false.
Proof.
  destruct acct as [s | c]; apply Account_deposit_never_lowers.
Qed.

(** X2.  A withdrawal never raises the balance, for either kind of
    account and every amount, whatever the rounding of the difference:
    afterwards [old < new] is false. *)
Theorem withdraw_never_raises_balance (acct : account) (a : float) :
  (getBalance acct <? getBalance (withdraw a acct)) = false.
Proof.
  destruct acct as [s | c].
  - apply Account_withdraw_never_raises.
  - apply Checking_withdraw_never_raises.
Qed.

(** [b + 0] compares as [b] does. *)
Lemma leb_add_zero (a b : float) : (a <=? b + 0) = (a <=? b).
Proof.
  rewrite !leb_spec, add_spec. unfold SF64add, SFleb.
  change (Prim2SF 0) with (S754_zero false).
  destruct (Prim2SF b) as [[] | [] | | s m e]; reflexivity.
Qed.

(** X3.  A checking account whose overdraft limit is zero withdraws as a
    savings account does: [CheckingAccount::withdraw] then accepts and
    refuses the same amounts as [Account::withdraw] and leaves the same
    account. *)
Theorem checking_without_overdraft_withdraws_as_savings
    (b : Account.t) (a : float) :
  CheckingAccount.withdraw a (CheckingAccount.mk b 0) =
  CheckingAccount.mk (Account.withdraw a b) 0.
Proof.
  unfold CheckingAccount.withdraw, Account.withdraw. cbn.
  rewrite leb_add_zero.
  destruct ((0 <? a) && (a <=? Account.balance_ b)); reflexivity.
Qed.

(** A limit that is not negative: zero, positive and finite, or
    [+infinity]. *)
Lemma nonneg_cases (L : float) :
  (0 <=? L) = true ->
  (exists q, value L = Some q /\ (0 <= q)%Q) \/
  Prim2SF L = S754_infinity false.
Proof.
  rewrite leb_spec. unfold value.
  change (Prim2SF 0) with (S754_zero false).
  destruct (Prim2SF L) as [s | [] | | [] m e]; cbn; try discriminate;
    intros _.
  - left. eexists. split; [reflexivity | lra].
  - now right.
  - left. eexists. split; [reflexivity |].
    apply Qlt_le_weak, magnitude_pos.
Qed.

(** The test of a savings account implies the test of a checking account
    whose limit is not negative. *)
Lemma guard_with_limit (b a L : float) :
  (0 <=? L) = true -> (0 <? a) = true -> (a <=? b) = true ->
  (a <=? b + L) = true.
Proof.
  intros HL Hpos Hle.
  destruct (positive_cases a Hpos) as [(qa & Ha & Hqa) | Ea].
  - destruct (value b) as [qb |] eqn:Eb.
    + pose proof (proj1 (leb_value _ _ _ _ Ha Eb) Hle) as Hab.
      destruct (nonneg_cases L HL) as [(ql & El & Hql) | EL].
      * assert (Hr : SF_at_least qb (Prim2SF (b + L))).
        { rewrite add_spec.
          apply (SFadd_at_least _ _ (Prim2SF b) qb ql qb);
            auto using Prim2SF_valid. lra. }
        unfold SF_at_least in Hr.
        destruct (SF2Q (Prim2SF (b + L))) as [q |] eqn:Er.
        -- apply (leb_value _ _ _ _ Ha Er). lra.
        -- rewrite leb_spec, Hr. unfold value in Ha.
           destruct (Prim2SF a) as [s | s | | s m e]; try discriminate;
             reflexivity.
      * rewrite leb_spec, add_spec, EL. unfold SF64add.
        unfold value in Eb, Ha.
        destruct (Prim2SF b) as [s | s | | s m e]; try discriminate;
          destruct (Prim2SF a) as [s' | s' | | s' m' e']; try discriminate;
          reflexivity.
    + rewrite leb_spec in Hle. rewrite leb_spec, add_spec.
      unfold SF64add, SFleb, value in *.
      destruct (nonneg_cases L HL) as [(ql & El & Hql) | EL];
        [unfold value in El | rewrite EL];
        destruct (Prim2SF a) as [s' | s' | | [] m' e']; try discriminate;
        destruct (Prim2SF b) as [s | [] | | s m e]; try discriminate;
        try (destruct (Prim2SF L) as [sl | sl | | sl ml el];
             try discriminate);
        cbn in *; try discriminate; try reflexivity.
  - rewrite leb_spec, Ea in Hle. rewrite leb_spec, add_spec, Ea.
    unfold SF64add, SFleb in *.
    destruct (nonneg_cases L HL) as [(ql & El & Hql) | EL];
      [unfold value in El | rewrite EL];
      destruct (Prim2SF b) as [s | [] | | s m e]; cbn in Hle;
      try discriminate;
      try (destruct (Prim2SF L) as [sl | sl | | sl ml el];
           try discriminate);
      reflexivity.
Qed.

(** X4.  With an overdraft limit that is not negative, a checking account
    accepts every withdrawal that a savings account of the same balance
    accepts, and leaves the same balance. *)
Theorem checking_accepts_what_savings_accepts
    (c : CheckingAccount.t) (a : float) :
  (0 <=? CheckingAccount.overdraftLimit_ c) = true ->
  (0 <? a) = true -> (a <=? CheckingAccount.getBalance c) = true ->
  CheckingAccount.base (CheckingAccount.withdraw a c) =
    Account.withdraw a (CheckingAccount.base c) /\
  CheckingAccount.getBalance (CheckingAccount.withdraw a c) =
    CheckingAccount.getBalance c - a.
Proof.
  unfold CheckingAccount.getBalance, Account.getBalance.
  intros HL Hpos Hle.
  pose proof (guard_with_limit _ _ _ HL Hpos Hle) as Hg.
  unfold CheckingAccount.withdraw, Account.withdraw.
  rewrite Hpos, Hle, Hg. split; reflexivity.
Qed.

End BalanceOrder.

(* ================================================================= *)
(** ** The sign of a savings balance *)


Section NeverNegative.
Import banking Binary64 Binary64Bounds.
Local Open Scope float_scope.

(** [x < 0] is false exactly when [x] is not below zero: a zero of either
    sign, a positive number, [+infinity] or a NaN. *)
Lemma ltb_zero_not_below (x : float) :
  (x <? 0) = false <-> not_below 0 x.
Proof.
  rewrite ltb_spec. unfold not_below, SF_not_below, SF2Q.
  change (Prim2SF 0) with (S754_zero false).
  destruct (Prim2SF x) as [s | [] | | [] m e]; cbn.
  - split; [intros _; lra | reflexivity].
  - split; [discriminate | intros H; now contradiction H].
  - split; [discriminate | reflexivity].
  - split; [discriminate | reflexivity].
  - split; [discriminate |]. intros H.
    pose proof (magnitude_pos m e). lra.
  - split; [intros _ | reflexivity].
    pose proof (magnitude_pos m e). lra.
Qed.

Lemma SF_not_below_zero_cases (r : spec_float) :
  SF_not_below 0 r ->
  (exists s, r = S754_zero s) \/ r = S754_infinity false \/ r = S754_nan \/
  (exists m e, r = S754_finite false m e).
Proof.
  unfold SF_not_below, SF2Q. destruct r as [s | [] | | [] m e]; cbn; intros H.
  - left. now exists s.
  - contradiction.
  - right. now left.
  - right. right. now left.
  - pose proof (magnitude_pos m e). lra.
  - right. right. right. now exists m, e.
Qed.

(** The product of two doubles that are not below zero is not below
    zero. *)
Lemma mul_not_below_zero (x y : float) :
  not_below 0 x -> not_below 0 y -> not_below 0 (x * y).
Proof.
  unfold not_below. rewrite mul_spec. unfold SF64mul.
  intros Hx Hy.
  destruct (SF_not_below_zero_cases _ Hx)
    as [(sx & ->) | [-> | [-> | (mx & ex & ->)]]];
  destruct (SF_not_below_zero_cases _ Hy)
    as [(sy & ->) | [-> | [-> | (my & ey & ->)]]];
  cbn [SFmul xorb]; unfold SF_not_below; cbn [SF2Q]; try lra;
    try discriminate.
  pose proof (binary_round_aux_sign false (mx * my) (ex + ey)) as H.
  destruct (binary_round_aux prec emax false (Z.pos (mx * my)) (ex + ey)
              loc_Exact) as [s | s | | s m e]; cbn [SF2Q].
  - lra.
  - subst s. discriminate.
  - discriminate.
  - subst s. cbn. pose proof (magnitude_pos m e). lra.
Qed.

(** The sum of two doubles that are not below zero is not below zero. *)
Lemma add_not_below_zero (x y : float) :
  not_below 0 x -> not_below 0 y -> not_below 0 (x + y).
Proof.
  unfold not_below. rewrite add_spec. unfold SF64add.
  intros Hx Hy.
  destruct (SF2Q (Prim2SF x)) as [qx |] eqn:Ex;
    [destruct (SF2Q (Prim2SF y)) as [qy |] eqn:Ey |].
  - unfold SF_not_below in Hx, Hy. rewrite Ex in Hx. rewrite Ey in Hy.
    apply (SFadd_not_below _ _ (S754_zero false) qx qy 0);
      try reflexivity; try assumption; lra.
  - destruct (SF_not_below_zero_cases _ Hx)
      as [(sx & Hx') | [Hx' | [Hx' | (mx & ex & Hx')]]];
    destruct (SF_not_below_zero_cases _ Hy)
      as [(sy & Hy') | [Hy' | [Hy' | (my & ey & Hy')]]];
    rewrite Hx', Hy' in *; try discriminate;
    cbn [SFadd]; unfold SF_not_below; cbn; discriminate.
  - destruct (SF_not_below_zero_cases _ Hx)
      as [(sx & Hx') | [Hx' | [Hx' | (mx & ex & Hx')]]];
    destruct (SF_not_below_zero_cases _ Hy)
      as [(sy & Hy') | [Hy' | [Hy' | (my & ey & Hy')]]];
    rewrite Hx', Hy' in *; try discriminate;
    cbn [SFadd]; unfold SF_not_below; cbn; discriminate.
Qed.

(** A withdrawal that passed the test [amount <= balance] does not take
    the balance below zero. *)
Lemma sub_not_below_zero (b a : float) :
  (0 <? a) = true -> (a <=? b) = true -> not_below 0 (b - a).
Proof.
  intros Hpos Hle.
  apply (withdrawal_not_below b a 0 0);
    [reflexivity | lra | assumption | now rewrite leb_add_zero |].
  unfold within_limit.
  destruct (value b) as [qb |] eqn:Eb; [| reflexivity].
  change (value 0) with (Some (0 : Q)%Q).
  destruct (positive_cases a Hpos) as [(qa & Ha & Hqa) | Ea].
  - rewrite Ha. apply Qle_bool_iff.
    pose proof (proj1 (leb_value _ _ _ _ Ha Eb) Hle). lra.
  - exfalso. rewrite leb_spec, Ea in Hle. unfold value in Eb.
    destruct (Prim2SF b) as [s | s | | s m e]; discriminate.
Qed.

Lemma Account_deposit_not_below_zero (a : float) (this : Account.t) :
  not_below 0 (Account.balance_ this) ->
  not_below 0 (Account.balance_ (Account.deposit a this)).
Proof.
  intros H. unfold Account.deposit. destruct (0 <? a) eqn:Hpos; cbn; auto.
  apply add_not_below_zero; auto using positive_not_below_zero.
Qed.

Lemma Account_withdraw_not_below_zero (a : float) (this : Account.t) :
  not_below 0 (Account.balance_ this) ->
  not_below 0 (Account.balance_ (Account.withdraw a this)).
Proof.
  intros H. unfold Account.withdraw.
  destruct (0 <? a) eqn:Hpos; cbn [andb]; auto.
  destruct (a <=? Account.balance_ this) eqn:Hle; cbn; auto.
  now apply sub_not_below_zero.
Qed.

Lemma applyInterest_not_below_zero (s : SavingsAccount.t) :
  not_below 0 (SavingsAccount.getBalance s) ->
  not_below 0 (SavingsAccount.interestRate_ s) ->
  not_below 0 (SavingsAccount.getBalance (SavingsAccount.applyInterest s)).
Proof.
  intros Hb Hr. cbn.
  apply add_not_below_zero; auto. now apply mul_not_below_zero.
Qed.

Lemma apply_sop_rate (o : SavingsRuns.sop) (s : SavingsAccount.t) :
  SavingsAccount.interestRate_ (SavingsRuns.apply_sop o s) =
  SavingsAccount.interestRate_ s.
Proof. destruct o; reflexivity. Qed.

Lemma apply_sop_not_below_zero (o : SavingsRuns.sop) (s : SavingsAccount.t) :
  not_below 0 (SavingsAccount.getBalance s) ->
  not_below 0 (SavingsAccount.interestRate_ s) ->
  not_below 0 (SavingsAccount.getBalance (SavingsRuns.apply_sop o s)).
Proof.
  intros Hb Hr. destruct o as [a | a |]; cbn [SavingsRuns.apply_sop].
  - now apply Account_deposit_not_below_zero.
  - now apply Account_withdraw_not_below_zero.
  - now apply applyInterest_not_below_zero.
Qed.

(** X5.  A savings account whose balance and interest rate are not
    negative keeps a balance that is not negative through every sequence
    of deposits, withdrawals and interest payments, whatever the amounts
    (negative, infinite or NaN included) and whatever the rounding. *)
Theorem savings_balance_never_negative
    (ops : list SavingsRuns.sop) (s : SavingsAccount.t) :
  (SavingsAccount.getBalance s <? 0) = false ->
  (SavingsAccount.interestRate_ s <? 0) = false ->
  (SavingsAccount.getBalance (SavingsRuns.run ops s) <? 0) = false.
Proof.
  rewrite !ltb_zero_not_below.
  revert s. induction ops as [| o rest IH]; intros s Hb Hr; [exact Hb |].
  cbn [SavingsRuns.run]. apply IH.
  - now apply apply_sop_not_below_zero.
  - now rewrite apply_sop_rate.
Qed.

(** X6.  Paying interest at a rate that is not negative never lowers a
    balance that is not negative. *)
Theorem applyInterest_never_lowers (s : SavingsAccount.t) :
  (SavingsAccount.getBalance s <? 0) = false ->
  (SavingsAccount.interestRate_ s <? 0) = false ->
  (SavingsAccount.getBalance (SavingsAccount.applyInterest s)
   <? SavingsAccount.getBalance s) = false.
Proof.
  rewrite !ltb_zero_not_below. intros Hb Hr. cbn.
  apply add_not_less. now apply mul_not_below_zero.
Qed.

End NeverNegative.

Section InterestEdges.
Import banking Binary64 Binary64Bounds.
Local Open Scope float_scope.

(** X7.  At the rate [0.0], [applyInterest] leaves every finite balance
    as it is, bit for bit, and turns a balance that is not finite
    (an infinity or a NaN) into a NaN. *)
Theorem applyInterest_zero_rate (b : Account.t) :
  let s' := SavingsAccount.applyInterest (SavingsAccount.mk b 0) in
  match value (Account.balance_ b) with
  | Some _ => SavingsAccount.getBalance s' = Account.balance_ b
  | None => Prim2SF (SavingsAccount.getBalance s') = S754_nan
  end.
Proof.
  cbn. set (x := Account.balance_ b).
  assert (H : match value x with
              | Some _ => Prim2SF (x + x * 0) = Prim2SF x
              | None => Prim2SF (x + x * 0) = S754_nan
              end).
  { rewrite add_spec, mul_spec. unfold value, SF64add, SF64mul.
    change (Prim2SF 0) with (S754_zero false).
    destruct (Prim2SF x) as [[] | [] | | [] m e]; reflexivity. }
  destruct (value x); [now apply Prim2SF_inj | exact H].
Qed.

(** After a deposit the amount deposited passes the test of
    [withdraw]. *)
Lemma deposited_amount_passes (b a : float) :
  (0 <=? b) = true -> (0 <? a) = true -> (a <=? b + a) = true.
Proof.
  intros Hb Hpos.
  destruct (nonneg_cases b Hb) as [(qb & Eb & Hqb) | Eb];
    destruct (positive_cases a Hpos) as [(qa & Ea & Hqa) | Ea].
  - assert (Hr : SF_at_least qa (Prim2SF (b + a))).
    { rewrite add_spec.
      apply (SFadd_at_least _ _ (Prim2SF a) qb qa qa);
        auto using Prim2SF_valid. lra. }
    unfold SF_at_least in Hr.
    destruct (SF2Q (Prim2SF (b + a))) as [q |] eqn:Er.
    + apply (leb_value _ _ _ _ Ea Er). lra.
    + rewrite leb_spec, Hr. unfold value in Ea.
      destruct (Prim2SF a) as [s | s | | s m e]; try discriminate;
        reflexivity.
  - rewrite leb_spec, add_spec, Ea. unfold SF64add, value in *.
    destruct (Prim2SF b) as [s | s | | s m e]; try discriminate;
      reflexivity.
  - rewrite leb_spec, add_spec, Eb. unfold SF64add, value in *.
    destruct (Prim2SF a) as [s | s | | s m e]; try discriminate;
      reflexivity.
  - rewrite leb_spec, add_spec, Ea, Eb. reflexivity.
Qed.

(** On the data of the base class, with [Account::withdraw]. *)
Lemma Account_deposit_then_withdraw (this : Account.t) (a : float) :
  (0 <=? Account.balance_ this) = true -> (0 <? a) = true ->
  Account.withdraw a (Account.deposit a this) =
  Account.set_balance this (Account.balance_ this + a - a).
Proof.
  intros Hb Hpos.
  pose proof (deposited_amount_passes _ _ Hb Hpos) as Hg.
  unfold Account.withdraw, Account.deposit. rewrite Hpos.
  cbn [Account.balance_ Account.set_balance].
  rewrite Hg. reflexivity.
Qed.

(** With the override of [CheckingAccount], whose limit is not
    negative. *)
Lemma Checking_deposit_then_withdraw (c : CheckingAccount.t) (a : float) :
  (0 <=? CheckingAccount.getBalance c) = true -> (0 <? a) = true ->
  (0 <=? CheckingAccount.overdraftLimit_ c) = true ->
  CheckingAccount.getBalance
    (CheckingAccount.withdraw a (CheckingAccount.deposit a c)) =
  CheckingAccount.getBalance c + a - a.
Proof.
  unfold CheckingAccount.getBalance, Account.getBalance.
  intros Hb Hpos HL.
  pose proof (deposited_amount_passes _ _ Hb Hpos) as Hg.
  pose proof (guard_with_limit _ _ _ HL Hpos Hg) as Hg'.
  unfold CheckingAccount.withdraw, CheckingAccount.deposit, Account.deposit.
  rewrite Hpos.
  cbn [CheckingAccount.base CheckingAccount.with_base
       CheckingAccount.overdraftLimit_ Account.balance_
       Account.set_balance].
  rewrite Hg'. reflexivity.
Qed.

(** X8.  What was deposited can be withdrawn: on a savings account, or
    on a checking account whose overdraft limit is not negative, with a
    balance [b] that is not negative, a deposit of a positive amount [a]
    followed by a withdrawal of [a] is never refused; the balance is then
    [(b + a) - a], which is not negative. *)
Theorem deposit_then_withdraw_is_accepted (acct : account) (a : float) :
  (0 <=? getBalance acct) = true -> (0 <? a) = true ->
  (forall L, overdraftLimit acct = Some L -> (0 <=? L) = true) ->
  let b := getBalance acct in
  getBalance (withdraw a (deposit a acct)) = b + a - a /\
  (b + a - a <? 0) = false.
Proof.
  intros Hb Hpos HL b. subst b. split.
  - destruct acct as [s | c].
    + unfold getBalance, Account.getBalance in *.
      cbn [withdraw deposit base] in *.
      unfold SavingsAccount.withdraw, SavingsAccount.deposit.
      cbn [SavingsAccount.base SavingsAccount.with_base].
      now rewrite Account_deposit_then_withdraw.
    + apply Checking_deposit_then_withdraw; auto.
  - apply ltb_zero_not_below, sub_not_below_zero; [exact Hpos |].
    now apply deposited_amount_passes.
Qed.

End InterestEdges.

Section CoverageExamples.
Import banking Binary64.
Local Open Scope float_scope.

(** X4: Bob's checking account with a balance of 500 and a limit of 500
    lets 200 go, as a savings account would, and keeps 300. *)
Lemma checking_accepts_what_savings_accepts_witness :
  let c :=
    CheckingAccount.deposit 500 (CheckingAccount.ctor 2 "Bob Jones" 500) in
  (0 <=? CheckingAccount.overdraftLimit_ c) = true /\
  (0 <? 200) = true /\ (200 <=? CheckingAccount.getBalance c) = true /\
  CheckingAccount.base (CheckingAccount.withdraw 200 c) =
    Account.withdraw 200 (CheckingAccount.base c) /\
  CheckingAccount.getBalance (CheckingAccount.withdraw 200 c) = 300.
Proof.
  cbv zeta.
  split; [reflexivity |]. split; [reflexivity |]. split; [reflexivity |].
  destruct
    (checking_accepts_what_savings_accepts
       (CheckingAccount.deposit 500 (CheckingAccount.ctor 2 "Bob Jones" 500))
       200 eq_refl eq_refl eq_refl) as [H1 H2].
  split; [exact H1 |]. rewrite H2. reflexivity.
Defined.

(** X5: Alice's savings account at 5%, through a deposit, an interest
    payment, a withdrawal that is refused, one that empties the account
    and a deposit that is refused. *)
Lemma savings_balance_never_negative_witness :
  let s := SavingsAccount.ctor 1 "Alice Smith" 0.05 in
  let ops :=
    [SavingsRuns.SDeposit 1000; SavingsRuns.SApplyInterest;
     SavingsRuns.SWithdraw 2000; SavingsRuns.SWithdraw 1050;
     SavingsRuns.SDeposit (-5)] in
  (SavingsAccount.getBalance s <? 0) = false /\
  (SavingsAccount.interestRate_ s <? 0) = false /\
  (SavingsAccount.getBalance (SavingsRuns.run ops s) <? 0) = false.
Proof.
  cbv zeta.
  split; [reflexivity |]. split; [reflexivity |].
  apply (savings_balance_never_negative
           [SavingsRuns.SDeposit 1000; SavingsRuns.SApplyInterest;
            SavingsRuns.SWithdraw 2000; SavingsRuns.SWithdraw 1050;
            SavingsRuns.SDeposit (-5)]
           (SavingsAccount.ctor 1 "Alice Smith" 0.05));
    reflexivity.
Defined.

(** X6: 1000 at 5% becomes 1050. *)
Lemma applyInterest_never_lowers_witness :
  let s :=
    SavingsAccount.deposit 1000 (SavingsAccount.ctor 1 "Alice Smith" 0.05) in
  (SavingsAccount.getBalance s <? 0) = false /\
  (SavingsAccount.interestRate_ s <? 0) = false /\
  (SavingsAccount.getBalance (SavingsAccount.applyInterest s)
   <? SavingsAccount.getBalance s) = false.
Proof.
  cbv zeta.
  split; [reflexivity |]. split; [reflexivity |].
  apply (applyInterest_never_lowers
           (SavingsAccount.deposit 1000
              (SavingsAccount.ctor 1 "Alice Smith" 0.05)));
    reflexivity.
Defined.

(** X8: 0.2 deposited on Bob's checking account, which holds 0.1 and
    has a limit of 500, and withdrawn again.  The withdrawal is accepted;
    the balance it leaves is not 0.1 but the double next to it,
    0.10000000000000003. *)
Lemma deposit_then_withdraw_is_accepted_witness :
  let acct :=
    deposit 0.1 (Checking (CheckingAccount.ctor 2 "Bob Jones" 500)) in
  (0 <=? getBalance acct) = true /\ (0 <? 0.2) = true /\
  (forall L, overdraftLimit acct = Some L -> (0 <=? L) = true) /\
  getBalance (withdraw 0.2 (deposit 0.2 acct)) = 0.10000000000000003 /\
  (getBalance acct =? 0.10000000000000003) = false.
Proof.
  cbv zeta.
  set (acct := deposit 0.1 (Checking (CheckingAccount.ctor 2 "Bob Jones" 500))).
  assert (HL : forall L, overdraftLimit acct = Some L -> (0 <=? L) = true).
  { intros L H. injection H as <-. reflexivity. }
  split; [reflexivity |]. split; [reflexivity |]. split; [exact HL |].
  destruct (deposit_then_withdraw_is_accepted acct 0.2 eq_refl eq_refl HL)
    as [H _].
  split; [| reflexivity]. rewrite H. reflexivity.
Defined.

End CoverageExamples.

(* ================================================================= *)
(** ** Integers, templates and what the C program writes *)


Section Integers.
Local Open Scope Z_scope.

Lemma wrap_exact_iff (z : Z) : CInt.wrap z = z <-> CInt.in_range z.
Proof.
  split; [| apply wrap_small].
  intros H. rewrite <- H. apply wrap_in_range.
Qed.

(** X9.  [add] of example.c returns an [int], and it returns the sum of
    its arguments exactly when that sum is an [int]. *)
Theorem add_returns_the_sum_iff_it_fits (a b : Z) :
  CInt.in_range (ExampleCProgram.add a b) /\
  (ExampleCProgram.add a b = a + b <-> CInt.in_range (a + b)).
Proof.
  split; [apply wrap_in_range | apply wrap_exact_iff].
Qed.

(** X10.  [add] and [Math::multiply] of hello.cpp return the sum and the
    product of their arguments exactly when these are [int]s. *)
Theorem hello_add_multiply_exact_iff_fits (a b : Z) :
  (HelloCpp.add a b = a + b <-> CInt.in_range (a + b)) /\
  (HelloCpp.Math.multiply a b = a * b <-> CInt.in_range (a * b)).
Proof.
  split; apply wrap_exact_iff.
Qed.

End Integers.

Section ContainerFacts.
Import ExampleCpp.
Context {T : Type}.

Lemma add_all_items (items : list T) (c : Container.t T) :
  Container.add_all items c = c ++ items.
Proof.
  revert c. induction items as [| x rest IH]; intros c; cbn.
  - now rewrite app_nil_r.
  - unfold Container.add_all in IH. rewrite IH. unfold Container.add.
    now rewrite <- app_assoc.
Qed.

(** X12.  A container keeps what was added, in the order of the calls:
    after [add(x1); ...; add(xn)] on a container [c], the size has grown
    by [n], every index below the old size reads what it read before,
    the index [size c + k] reads the [k]-th item added, and an index is in
    range exactly when it is below the size. *)
Theorem container_keeps_items_in_order
    (items : list T) (c : Container.t T) :
  let c' := Container.add_all items c in
  Container.size c' = (Container.size c + List.length items)%nat /\
  (forall i, (i < Container.size c)%nat ->
     Container.index c' i = Container.index c i) /\
  (forall k, Container.index c' (Container.size c + k) = nth_error items k) /\
  (forall i, Container.index c' i <> None <-> (i < Container.size c')%nat).
Proof.
  cbn zeta. rewrite add_all_items.
  unfold Container.size, Container.index. repeat split.
  - apply length_app.
  - intros i Hi. now apply nth_error_app1.
  - intros k. rewrite nth_error_app2 by lia. f_equal. lia.
  - apply nth_error_Some.
  - apply nth_error_Some.
Qed.

End ContainerFacts.

Section MaxFacts.
Import ExampleCpp Binary64.
Local Open Scope float_scope.

(** [<] on doubles is asymmetric. *)
Lemma ltb_asym (a b : float) : (a <? b) = true -> (b <? a) = false.
Proof.
  intros H.
  destruct (value a) as [qa |] eqn:Ea; [destruct (value b) as [qb |] eqn:Eb |].
  - apply (ltb_value _ _ _ _ Ea Eb) in H.
    destruct (b <? a) eqn:E; [| reflexivity].
    apply (ltb_value _ _ _ _ Eb Ea) in E. lra.
  - revert H. rewrite !ltb_spec. unfold value in *.
    destruct (Prim2SF a) as [s | s | | s m e]; try discriminate;
      destruct (Prim2SF b) as [s' | [] | | s' m' e']; try discriminate;
      try destruct s; cbn; congruence.
  - revert H. rewrite !ltb_spec. unfold value in *.
    destruct (Prim2SF a) as [s | [] | | s m e]; try discriminate;
      destruct (Prim2SF b) as [s' | [] | | [] m' e']; cbn; congruence.
Qed.

Lemma ltb_nan_l (a b : float) : Prim2SF a = S754_nan -> (a <? b) = false.
Proof. intros H. rewrite ltb_spec, H. reflexivity. Qed.

Lemma ltb_nan_r (a b : float) : Prim2SF b = S754_nan -> (a <? b) = false.
Proof.
  intros H. rewrite ltb_spec, H.
  destruct (Prim2SF a) as [s | s | | s m e]; reflexivity.
Qed.

(** X11.  [max] at [double] returns one of its arguments, and none of
    them compares greater than what it returns.  It is not symmetric:
    as soon as an argument is a NaN it returns the second one, so
    [max(NaN, x)] is [x] and [max(x, NaN)] is NaN. *)
Theorem max_double_spec (a b : float) :
  (max_double a b = a \/ max_double a b = b) /\
  (max_double a b <? a) = false /\
  (max_double a b <? b) = false /\
  (Prim2SF a = S754_nan \/ Prim2SF b = S754_nan -> max_double a b = b).
Proof.
  unfold max_double, max.
  destruct (b <? a) eqn:E.
  - split; [now left |]. split; [apply ltb_irrefl |].
    split; [now apply ltb_asym |].
    intros [H | H].
    + now rewrite (ltb_nan_r b a H) in E.
    + now rewrite (ltb_nan_l b a H) in E.
  - split; [now right |]. split; [exact E |].
    split; [apply ltb_irrefl | reflexivity].
Qed.

(** [max] at [int] is the greater argument. *)
Lemma max_int_spec (a b : Z) : max_int a b = Z.max a b.
Proof.
  unfold max_int, max. rewrite Z.gtb_ltb.
  destruct (Z.ltb_spec b a); lia.
Qed.

End MaxFacts.

Section CProgram.
Import CString ExampleC ExampleCProgram.
Local Open Scope string_scope.
Variable fmt_2f : spec_float -> string.

Lemma append_assoc (a b c : string) : (a ++ b) ++ c = a ++ (b ++ c).
Proof. induction a as [| x a IH]; cbn; [reflexivity | now rewrite IH]. Qed.

(** X13.  After [create_account(id, name)] succeeded, [print_account]
    writes the identifier, the first 49 characters of [name] and the
    balance zero, whatever the block of [malloc] held; on [NULL] it
    writes [Invalid account] and nothing else. *)
Theorem print_account_after_create_account
    (id0 : Z) (name0 : list byte) (m : malloc_result) (k : Z) (o : output) :
  print_account fmt_2f (fst (create_account id0 name0 m k)) o =
  match m with
  | None => printf ("Invalid account" ++ nl) o
  | Some _ =>
      printf
        ("Account ID: " ++ fmt_d id0 ++ nl ++
         "Name: " ++ string_of_list_byte (firstn 49 (c_str name0)) ++ nl ++
         "Balance: " ++ fmt_2f zero ++ nl) o
  end.
Proof.
  destruct m as [raw |]; [| reflexivity].
  cbn [create_account fst print_account id name balance].
  unfold fmt_s. change (sizeof_name - 1)%nat with 49%nat.
  rewrite c_str_bounded_copy.
  unfold printf. cbn [stdout stderr]. f_equal.
  rewrite !append_assoc. reflexivity.
Qed.

(** X14.  [main] of example.c exits with status 1 exactly when [malloc]
    fails: it then has written the welcome line to [stdout] and the
    failure message to [stderr].  Otherwise it exits with status 0,
    writes nothing to [stderr], and reports the account 1 of John Doe,
    the sum 30 and one account created, whatever the block of [malloc]
    held. *)
Theorem main_spec (m : malloc_result) :
  main fmt_2f m =
  match m with
  | None =>
      (1%Z,
       {| stdout := "Welcome to Account Manager" ++ nl;
          stderr := "Failed to create account" ++ nl |})
  | Some _ =>
      (0%Z,
       {| stdout :=
            "Welcome to Account Manager" ++ nl ++
            "Account ID: 1" ++ nl ++
            "Name: John Doe" ++ nl ++
            "Balance: " ++ fmt_2f balance_1000_50 ++ nl ++
            "Sum: 30" ++ nl ++
            "Total accounts created: 1" ++ nl;
          stderr := "" |})
  end.
Proof.
  destruct m as [raw |]; [| reflexivity].
  unfold main. cbn [create_account].
  cbn [print_account id name balance].
  unfold fmt_s. change (sizeof_name - 1)%nat with 49%nat.
  rewrite c_str_bounded_copy.
  unfold printf, no_output. cbn [stdout stderr]. f_equal. f_equal.
  cbn. rewrite !append_assoc. reflexivity.
Qed.

End CProgram.
